(** * log-strip: the detection and removal engine of [src/index.ts]

    A shallow embedding of [buildPatterns], [findMatches] and
    [removeStatements], together with the small part of JavaScript's string
    and regular-expression semantics these three functions rely on, and of
    what [main] puts around them: [parseArgs], [walkFiles],
    [getStagedFiles], [typeIcon] and the loop over the files.

    The regular expressions of the source are values of a small syntax, run
    by a backtracking matcher. [findMatches] returns [None] where the
    source's [while]/[exec] loop would never end; [removeStatements] reads
    its array by index and returns [TypeError] where the source would call a
    method of [undefined]. The file system is a tree of directory entries
    for [walkFiles] and a map from paths to texts for the loop of [main].
    The properties come last: one theorem for each numbered property of the
    specification, then further properties of the code. *)

From Stdlib Require Import String Ascii.
From stdpp Require Import base numbers option list sorting gmap.

Open Scope nat_scope.

(** ** Strings

    A JavaScript string is a sequence of UTF-16 code units. *)

Definition char := N.
Definition str := list char.

(** Reading a string literal of this file as a JavaScript string. *)
Fixpoint js (s : string) : str :=
  match s with
  | EmptyString => []
  | String a s' => N_of_ascii a :: js s'
  end.
Arguments js : simpl never.

Definition NL : char := 10%N.
Definition DQUOTE : char := 34%N.
Definition LPAREN : char := 40%N.
Definition RPAREN : char := 41%N.
Definition DOT : char := 46%N.
Definition SEMI : char := 59%N.

(** ECMAScript [WhiteSpace] and [LineTerminator] code units: what [\s]
    matches and what [String.prototype.trim] strips. *)
Definition is_space (c : char) : bool :=
  ((9 <=? c) && (c <=? 13) || (c =? 32) || (c =? 160) || (c =? 5760)
   || (8192 <=? c) && (c <=? 8202) || (c =? 8232) || (c =? 8233)
   || (c =? 8239) || (c =? 8287) || (c =? 12288) || (c =? 65279))%N.

(** [\w] without the [u] and [i] flags: [[A-Za-z0-9_]]. *)
Definition is_word (c : char) : bool :=
  ((48 <=? c) && (c <=? 57) || (65 <=? c) && (c <=? 90) || (c =? 95)
   || (97 <=? c) && (c <=? 122))%N.

Fixpoint trimStart (s : str) : str :=
  match s with
  | c :: s' => if is_space c then trimStart s' else s
  | [] => []
  end.

Definition trimEnd (s : str) : str := reverse (trimStart (reverse s)).

(** [s.trim()] *)
Definition trim (s : str) : str := trimEnd (trimStart s).

(** [s.startsWith(p)] *)
Fixpoint startsWith (s p : str) : bool :=
  match p, s with
  | [], _ => true
  | a :: p', b :: s' => (a =? b)%N && startsWith s' p'
  | _ :: _, [] => false
  end.

(** [s.includes(p)] *)
Fixpoint includes (s p : str) : bool :=
  startsWith s p ||
  match s with
  | [] => false
  | _ :: s' => includes s' p
  end.

(** [s === t] on strings *)
Definition str_eqb (s t : str) : bool := bool_decide (s = t).

(** [content.split("\n")]: never the empty array. *)
Fixpoint split_nl (s : str) : list str :=
  match s with
  | [] => [[]]
  | c :: s' =>
      if (c =? NL)%N then [] :: split_nl s'
      else match split_nl s' with
           | l :: ls => (c :: l) :: ls
           | [] => [[c]]
           end
  end.

(** [lines.join("\n")] *)
Fixpoint join_nl (ls : list str) : str :=
  match ls with
  | [] => []
  | [l] => l
  | l :: ls' => l ++ NL :: join_nl ls'
  end.

(** [(line.match(/c/g) || []).length] for a single literal character [c]. *)
Fixpoint count_char (c : char) (s : str) : nat :=
  match s with
  | [] => 0
  | d :: s' => (if (d =? c)%N then 1 else 0) + count_char c s'
  end.

(** ** Regular expressions

    The fragment of ECMAScript regular expressions that occurs in the source:
    literals, the classes [\s], [\w] and [[^)]], greedy repetition of a
    class, sequence, ordered alternation, and the assertion [\b]. *)

Inductive cls :=
| CChar (c : char)      (* a literal character *)
| CSpace                (* \s *)
| CWord                 (* \w *)
| CNot (c : char).      (* [^c] *)

Definition cls_mem (p : cls) (c : char) : bool :=
  match p with
  | CChar d => (c =? d)%N
  | CSpace => is_space c
  | CWord => is_word c
  | CNot d => negb (c =? d)%N
  end.

Inductive regex :=
| Eps
| Cls (p : cls)
| Star (p : cls)        (* greedy p* *)
| Seq (a b : regex)
| Alt (a b : regex)     (* a|b, a tried first *)
| WordB.                (* \b *)

Definition Chr (c : char) : regex := Cls (CChar c).
Definition Plus (p : cls) : regex := Seq (Cls p) (Star p).   (* p+ *)
Definition Opt (a : regex) : regex := Alt a Eps.             (* a? *)

Fixpoint lit (s : str) : regex :=
  match s with
  | [] => Eps
  | c :: s' => Seq (Chr c) (lit s')
  end.

Fixpoint seqs (rs : list regex) : regex :=
  match rs with
  | [] => Eps
  | [r] => r
  | r :: rs' => Seq r (seqs rs')
  end.

(** Is the character before (after) the current position a word character?
    Out of the string counts as a non-word character. *)
Definition word_before (prev : option char) : bool :=
  match prev with Some c => is_word c | None => false end.
Definition word_after (s : str) : bool :=
  match s with c :: _ => is_word c | [] => false end.

(** A backtracking matcher in continuation-passing style. [prev] is the
    character before the current position (for [\b]), [s] the rest of the
    input and [k] what remains to be matched; the first success in priority
    order is returned, as the ECMAScript matcher does. *)
Section Matcher.
Context {A : Type}.
Definition cont := option char → str → option A.

Fixpoint star_run (p : cls) (k : cont) (prev : option char) (s : str) : option A :=
  match s with
  | c :: s' =>
      if cls_mem p c then
        match star_run p k (Some c) s' with
        | Some r => Some r
        | None => k prev s
        end
      else k prev s
  | [] => k prev s
  end.

Fixpoint run (r : regex) (k : cont) (prev : option char) (s : str) : option A :=
  match r with
  | Eps => k prev s
  | Cls p =>
      match s with
      | c :: s' => if cls_mem p c then k (Some c) s' else None
      | [] => None
      end
  | Star p => star_run p k prev s
  | Seq a b => run a (run b k) prev s
  | Alt a b =>
      match run a k prev s with
      | Some x => Some x
      | None => run b k prev s
      end
  | WordB => if xorb (word_before prev) (word_after s) then k prev s else None
  end.
End Matcher.

(** A match of [r] anchored at the current position: the rest of the input
    after the match. *)
Definition match_at (r : regex) (prev : option char) (s : str) : option str :=
  run r (λ _ s', Some s') prev s.

(** The text consumed between a position [s] and a later position [rest]. *)
Definition consumed (s rest : str) : str := take (length s - length rest) s.

(** The leftmost match at or after the current position, as
    [RegExp.prototype.exec] finds it: its start index, the input from the
    match on, and the input after the match. *)
Fixpoint search (r : regex) (prev : option char) (s : str) (idx : nat)
  : option (nat * str * str) :=
  match match_at r prev s with
  | Some rest => Some (idx, s, rest)
  | None =>
      match s with
      | [] => None
      | c :: s' => search r (Some c) s' (S idx)
      end
  end.

(** [pattern.lastIndex = 0; pattern.test(s)] *)
Definition test (r : regex) (s : str) : bool :=
  match search r None s 0 with Some _ => true | None => false end.

(** [s.match(/pre(grp)/)?.[1]]: the text of a capture group that ends the
    regular expression, in the leftmost match. *)
Fixpoint search_group (pre grp : regex) (prev : option char) (s : str) : option str :=
  match run pre (λ p1 s1, run grp (λ _ s2, Some (consumed s1 s2)) p1 s1) prev s with
  | Some g => Some g
  | None =>
      match s with
      | [] => None
      | c :: s' => search_group pre grp (Some c) s'
      end
  end.

(** The loop [while ((match = pattern.exec(line)) !== null) ...] over a
    global regular expression, started with [lastIndex = 0]: the start index
    and the text of each match, left to right. [skip] counts the characters
    of the previous match still to be passed. An empty match leaves
    [lastIndex] where it is and the source's loop never ends: [None]. *)
Fixpoint execAll (r : regex) (prev : option char) (s : str) (idx skip : nat)
  : option (list (nat * str)) :=
  match s with
  | [] =>
      match skip, match_at r prev [] with
      | O, Some _ => None
      | _, _ => Some []
      end
  | c :: s' =>
      match skip with
      | S n => execAll r (Some c) s' (S idx) n
      | O =>
          match match_at r prev s with
          | Some rest =>
              match length s - length rest with
              | O => None
              | S n => cons (idx, consumed s rest) <$> execAll r (Some c) s' (S idx) n
              end
          | None => execAll r (Some c) s' (S idx) 0
          end
      end
  end.

(** [s.replace(r, "")] for a global [r]: every match, left to right, is
    deleted. An empty match deletes nothing and the scan moves on by one
    character. *)
Fixpoint replaceAll (r : regex) (prev : option char) (s : str) (skip : nat) : str :=
  match s with
  | [] => []
  | c :: s' =>
      match skip with
      | S n => replaceAll r (Some c) s' n
      | O =>
          match match_at r prev s with
          | Some rest =>
              match length s - length rest with
              | O => c :: replaceAll r (Some c) s' 0
              | S n => replaceAll r (Some c) s' n
              end
          | None => c :: replaceAll r (Some c) s' 0
          end
      end
  end.

Definition replace (r : regex) (s : str) : str := replaceAll r None s 0.

(** ** Pattern matching *)

Definition CONSOLE_METHODS : list str :=
  [ js "log"; js "debug"; js "info"; js "warn"; js "error"; js "trace";
    js "table"; js "dir"; js "time"; js "timeEnd"; js "timeLog"; js "count";
    js "countReset"; js "group"; js "groupEnd"; js "groupCollapsed";
    js "clear"; js "assert"; js "profile"; js "profileEnd" ].

(** [(?:m|m1|...)]: [methods.join("|")] of a non-empty array. *)
Fixpoint alts (m : str) (ms : list str) : regex :=
  match ms with
  | [] => lit m
  | m' :: ms' => Alt (lit m) (alts m' ms')
  end.

Definition ws : regex := Star CSpace.   (* \s* *)

(** [\bconsole\s*\.\s*(?:m|...)\s*\(] *)
Definition re_console (m : str) (ms : list str) : regex :=
  seqs [WordB; lit (js "console"); ws; Chr DOT; ws; alts m ms; ws; Chr LPAREN].

(** [\bdebugger\b\s*;?] *)
Definition re_debugger : regex :=
  seqs [WordB; lit (js "debugger"); WordB; ws; Opt (Chr SEMI)].

(** [\balert\s*\(] *)
Definition re_alert : regex :=
  seqs [WordB; lit (js "alert"); ws; Chr LPAREN].

Definition buildPatterns (keep : list str) : list regex :=
  let methods := filter (λ m, m ∉ keep) CONSOLE_METHODS in
  match methods with
  | m :: ms => [re_console m ms]       (* methods.length > 0 *)
  | [] => []
  end ++ [re_debugger; re_alert].

Record Match := mkMatch {
  file : str;
  line : nat;
  column : nat;
  type : str;
  content : str;
}.

(** The Comment Gate, on an already trimmed line. *)
Definition isComment (trimmed : str) : bool :=
  startsWith trimmed (js "//") || startsWith trimmed (js "/*")
  || startsWith trimmed (js "*").

(** [matchStr.match(/console\s*\.\s*(\w+)/)?.[1]] *)
Definition methodMatch (matchStr : str) : option str :=
  search_group (seqs [lit (js "console"); ws; Chr DOT; ws]) (Plus CWord)
    None matchStr.

(** The [type] given to a match of text [matchStr]. *)
Definition matchType (matchStr : str) : str :=
  if includes matchStr (js "console.") then
    js "console." ++
      match methodMatch matchStr with
      | Some (c :: g) => c :: g
      | _ => js "log"                   (* [|| "log"] *)
      end
  else if includes matchStr (js "debugger") then js "debugger"
  else if includes matchStr (js "alert") then js "alert"
  else js "unknown".

(** The matches of one pattern on the line of index [lineIdx]. *)
Definition lineMatches (lineIdx : nat) (l : str) (pattern : regex)
  : option (list Match) :=
  fmap (M := list)
    (λ m : nat * str,
       mkMatch [] (lineIdx + 1) (m.1 + 1) (matchType m.2) (trim l))
    <$> execAll pattern None l 0 0.

(** [for (const pattern of patterns) ...] on one line. *)
Fixpoint patternsLoop (lineIdx : nat) (l : str) (patterns : list regex)
  : option (list Match) :=
  match patterns with
  | [] => Some []
  | pattern :: ps =>
      ms ← lineMatches lineIdx l pattern;
      rest ← patternsLoop lineIdx l ps;
      Some (ms ++ rest)
  end.

(** [for (let lineIdx = 0; lineIdx < lines.length; lineIdx++) ...] *)
Fixpoint linesLoop (lineIdx : nat) (lines : list str) (patterns : list regex)
  : option (list Match) :=
  match lines with
  | [] => Some []
  | l :: lines' =>
      if isComment (trim l) then linesLoop (S lineIdx) lines' patterns
      else
        ms ← patternsLoop lineIdx l patterns;
        rest ← linesLoop (S lineIdx) lines' patterns;
        Some (ms ++ rest)
  end.

(** [findMatches]; [None] stands for a run that never returns. *)
Definition findMatches (content : str) (patterns : list regex)
  : option (list Match) :=
  linesLoop 0 (split_nl content) patterns.

(** ** Fix (remove statements) *)

(** How a run of the source ends: with a value, with the [TypeError] of a
    method call on [undefined] (an array read out of range), or not at all. *)
Inductive outcome (A : Type) :=
| Ok (a : A)
| TypeError
| Diverges.
Arguments Ok {A} a.
Arguments TypeError {A}.
Arguments Diverges {A}.

(** [\bconsole\s*\.\s*\w+\s*\([^)]*\)\s*;?\s*] *)
Definition strip_console : regex :=
  seqs [WordB; lit (js "console"); ws; Chr DOT; ws; Plus CWord; ws;
        Chr LPAREN; Star (CNot RPAREN); Chr RPAREN; ws; Opt (Chr SEMI); ws].

(** [\bdebugger\b\s*;?\s*] *)
Definition strip_debugger : regex :=
  seqs [WordB; lit (js "debugger"); WordB; ws; Opt (Chr SEMI); ws].

(** [\balert\s*\([^)]*\)\s*;?\s*] *)
Definition strip_alert : regex :=
  seqs [WordB; lit (js "alert"); ws; Chr LPAREN; Star (CNot RPAREN);
        Chr RPAREN; ws; Opt (Chr SEMI); ws].

(** The three [.replace] calls and the final [.trim()]. *)
Definition cleaned (trimmed : str) : str :=
  trim (replace strip_alert (replace strip_debugger (replace strip_console trimmed))).

(** The first [for (const pattern of patterns)] loop: the value of
    [shouldRemove] after it. *)
Fixpoint wholeLine (patterns : list regex) (trimmed : str) : bool :=
  match patterns with
  | [] => false
  | pattern :: ps =>
      if test pattern trimmed then
        match cleaned trimmed with
        | [] => true                      (* [!cleaned]: break *)
        | _ :: _ => wholeLine ps trimmed
        end
      else wholeLine ps trimmed
  end.

(** [patterns.some((p) => { p.lastIndex = 0; return p.test(trimmed); })] *)
Definition someTest (patterns : list regex) (trimmed : str) : bool :=
  existsb (λ p, test p trimmed) patterns.

Definition openParens (l : str) : nat := count_char LPAREN l.
Definition closeParens (l : str) : nat := count_char RPAREN l.

(** [while (depth > 0 && i + 1 < lines.length) { i++; ... }]: the value of
    [i] after the loop. *)
Fixpoint skipLoop (fuel : nat) (lines : list str) (i : nat) (depth : Z)
  : outcome nat :=
  match fuel with
  | O => Diverges
  | S fuel' =>
      if bool_decide (0 < depth)%Z && bool_decide (i + 1 < length lines) then
        match lines !! (i + 1) with
        | None => TypeError
        | Some nextLine =>
            skipLoop fuel' lines (i + 1)
              (depth + Z.of_nat (openParens nextLine)
                     - Z.of_nat (closeParens nextLine))%Z
        end
      else Ok i
  end.

(** [for (let i = 0; i < lines.length; i++) ...]: the array [result] after
    the loop. *)
Fixpoint forLoop (fuel : nat) (patterns : list regex) (lines : list str)
    (i : nat) (result : list str) : outcome (list str) :=
  match fuel with
  | O => Diverges
  | S fuel' =>
      if bool_decide (i < length lines) then
        match lines !! i with
        | None => TypeError
        | Some l =>
            let trimmed := trim l in
            if isComment trimmed then
              forLoop fuel' patterns lines (i + 1) (result ++ [l])
            else
              let shouldRemove := wholeLine patterns trimmed in
              if negb shouldRemove && someTest patterns trimmed then
                if bool_decide (closeParens l < openParens l) then
                  match skipLoop (length lines) lines i
                          (Z.of_nat (openParens l) - Z.of_nat (closeParens l))%Z with
                  | Ok i' =>
                      if bool_decide (i' + 1 < length lines) then
                        match lines !! (i' + 1) with
                        | None => TypeError
                        | Some next =>
                            if str_eqb (trim next) (js ";")
                            then forLoop fuel' patterns lines (i' + 1 + 1) result
                            else forLoop fuel' patterns lines (i' + 1) result
                        end
                      else forLoop fuel' patterns lines (i' + 1) result
                  | TypeError => TypeError
                  | Diverges => Diverges
                  end
                else forLoop fuel' patterns lines (i + 1) result
              else if shouldRemove then
                forLoop fuel' patterns lines (i + 1) result
              else
                forLoop fuel' patterns lines (i + 1) (result ++ [l])
        end
      else Ok result
  end.

Definition blank (l : str) : bool := str_eqb (trim l) [].

(** The post-pass: [result[i]] is left out when [i > 0] and both it and
    [result[i - 1]] are blank. [before] is [result[i - 1]], if any. *)
Fixpoint collapseBlank (before : option str) (result : list str) : list str :=
  match result with
  | [] => []
  | l :: rest =>
      match before with
      | Some b =>
          if blank l && blank b then collapseBlank (Some l) rest
          else l :: collapseBlank (Some l) rest
      | None => l :: collapseBlank (Some l) rest
      end
  end.

Definition removeStatements (content : str) (patterns : list regex)
  : outcome str :=
  let lines := split_nl content in
  match forLoop (S (length lines)) patterns lines 0 [] with
  | Ok result => Ok (join_nl (collapseBlank None result))
  | TypeError => TypeError
  | Diverges => Diverges
  end.

(** ** The loop as a transition system

    The [for] loop of [removeStatements] moves its index by hand. Read line
    by line it is a machine with three modes: [Live] at the head of the loop,
    [Skip depth] inside the [while] loop that consumes the continuation of a
    multi-line statement, and [Semi] at the lone-semicolon check that follows
    it. [forLoop_scan] below shows that the machine computes what [forLoop]
    does. *)

Inductive mode :=
| Live
| Skip (depth : Z)
| Semi.

(** [openParens - closeParens] of a line. *)
Definition delta (l : str) : Z :=
  (Z.of_nat (openParens l) - Z.of_nat (closeParens l))%Z.

Definition skipMode (depth : Z) : mode :=
  if bool_decide (0 < depth)%Z then Skip depth else Semi.

(** What the body of the [for] loop does with the line it is at. *)
Definition stepLive (patterns : list regex) (l : str) : mode * list str :=
  let trimmed := trim l in
  if isComment trimmed then (Live, [l])
  else
    let shouldRemove := wholeLine patterns trimmed in
    if negb shouldRemove && someTest patterns trimmed then
      if bool_decide (closeParens l < openParens l)
      then (skipMode (delta l), [])
      else (Live, [])
    else if shouldRemove then (Live, []) else (Live, [l]).

Definition step (patterns : list regex) (m : mode) (l : str) : mode * list str :=
  match m with
  | Live => stepLive patterns l
  | Skip depth => (skipMode (depth + delta l), [])
  | Semi => if str_eqb (trim l) (js ";") then (Live, []) else stepLive patterns l
  end.

(** The lines pushed to [result] from [lines] on, started in mode [m]. *)
Fixpoint scan (patterns : list regex) (m : mode) (lines : list str) : list str :=
  match lines with
  | [] => []
  | l :: lines' =>
      (step patterns m l).2 ++ scan patterns (step patterns m l).1 lines'
  end.

(** The mode reached after [lines]. *)
Fixpoint modeAfter (patterns : list regex) (m : mode) (lines : list str) : mode :=
  match lines with
  | [] => m
  | l :: lines' => modeAfter patterns (step patterns m l).1 lines'
  end.

(** Do [lines] end inside the continuation of a multi-line statement? *)
Definition inStatement (patterns : list regex) (lines : list str) : bool :=
  match modeAfter patterns Live lines with
  | Skip _ => true
  | _ => false
  end.


(** The parenthesis balance, [depth] before [rest], stays positive on every
    line of [rest]. *)
Fixpoint staysOpen (depth : Z) (rest : list str) : bool :=
  match rest with
  | [] => true
  | l :: rest' =>
      bool_decide (0 < depth + delta l)%Z && staysOpen (depth + delta l) rest'
  end.


(** A line the loop keeps when it is at it: a commented one, or one that no
    pattern matches. *)
Definition quiet (patterns : list regex) (l : str) : bool :=
  isComment (trim l) || negb (someTest patterns (trim l)).

(** Having gone through [pre], the loop takes the next line [l] as a line of
    its own, at the head of the [for] loop: it is not inside the [while] loop
    of a multi-line statement, and [l] is not the lone semicolon that the
    check after that loop passes over. *)
Definition reaches (patterns : list regex) (pre : list str) (l : str) : bool :=
  match modeAfter patterns Live pre with
  | Live => true
  | Skip _ => false
  | Semi => negb (str_eqb (trim l) (js ";"))
  end.

(** The pattern of [buildPatterns] a match comes from, read off its [type]:
    0 for the console pattern, 1 for [debugger], 2 for [alert]. *)
Definition typeRank (t : str) : nat :=
  if str_eqb t (js "debugger") then 1
  else if str_eqb t (js "alert") then 2
  else 0.

(** Discovery order of [findMatches]: by line, then by pattern, then by
    column. *)
Definition discovered_before (a b : Match) : Prop :=
  line a < line b ∨
  line a = line b ∧
    (typeRank (type a) < typeRank (type b) ∨
     typeRank (type a) = typeRank (type b) ∧ column a < column b).

(** The [type] of a console match: [console.m] for a method [m] of the
    pattern, or [unknown]. *)
Definition consoleType (ms : list str) (t : str) : Prop :=
  t = js "unknown" ∨ ∃ m, m ∈ ms ∧ t = js "console." ++ m.

(** The [type] of a match of a pattern set over the methods [ms]. *)
Definition knownType (ms : list str) (t : str) : Prop :=
  consoleType ms t ∨ t = js "debugger" ∨ t = js "alert".

(** No two consecutive blank lines. *)
Fixpoint noBlankPair (lines : list str) : Prop :=
  match lines with
  | l :: (l' :: _) as rest => ¬ (blank l = true ∧ blank l' = true) ∧ noBlankPair rest
  | _ => True
  end.

(** ** Small runs *)

(** A file given line by line. *)
Definition text (ls : list string) : str := join_nl (js <$> ls).

(** [console.log("hi");\nconst x = 1;] *)
Definition sample_hi : str :=
  js "console.log(" ++ [DQUOTE] ++ js "hi" ++ [DQUOTE] ++ js ");" ++ [NL]
  ++ js "const x = 1;".

(** Two blank lines between two lines of code, and no debug statement. *)
Definition sample_blanks : str := text ["a"; EmptyString; EmptyString; "b"]%string.

(** A comment between the lines of a call. *)
Definition sample_comment_inside : str :=
  text ["console.log("; "  // note"; "  1"; ");"; "keep();"]%string.



(** A call whose first line holds a nested call. *)
Definition sample_nested_first_line : str :=
  text ["console.log(foo(1)"; ");"; "keep();"]%string.

(** A kept method after one that is not kept, on one line. *)
Definition sample_mixed_line : str := js "console.log(1); console.error(2);".

(** An [alert] before a console call, on one line. *)
Definition sample_alert_first : str := js "alert(1); console.log(2)".

(** White space before the dot. *)
Definition sample_spaced_dot : str := js "console .log(1)".

(** A call that is never closed. *)
Definition sample_unclosed : str :=
  text ["before();"; "console.log("; "  oops;"; "after();"]%string.

(** ** Reading a match back

    The character before index [idx] of a line, and the word a match of
    each pattern of [buildPatterns] starts with, by [typeRank]. *)

Definition prevAt (l : str) (idx : nat) : option char :=
  match idx with
  | O => None
  | S j => l !! j
  end.

Definition keyword (rank : nat) : str :=
  match rank with
  | 0 => js "console"
  | 1 => js "debugger"
  | _ => js "alert"
  end.

(** Is the type [debugger] or [alert]? *)
Definition plainType (m : Match) : bool :=
  str_eqb (type m) (js "debugger") || str_eqb (type m) (js "alert").

(** [m] is a match of the pattern [r] on the line [l]: it starts at its
    column, where [r] matches, and carries the trimmed line. *)
Definition matchOn (r : regex) (l : str) (m : Match) : Prop :=
  file m = [] ∧ content m = trim l ∧
  1 ≤ column m ∧ column m ≤ length l ∧
  ∃ rest, match_at r (prevAt l (column m - 1)) (drop (column m - 1) l) = Some rest ∧
          type m = matchType (consumed (drop (column m - 1) l) rest).

(** ** Command-line parsing: [parseArgs] *)

Module Cli.

Record CliOptions := mkOptions {
  dirs : list str;
  fix_ : bool;                (* [fix] *)
  keep : list str;
  staged : bool;
  ci : bool;
  json : bool;
  help : bool;
  extensions : list str;
  dryRun : bool;
  verbose : bool;
}.

Definition COMMA : char := 44%N.

(** [s.split(sep)] for a one-character separator: never the empty array. *)
Fixpoint splitOn (sep : char) (s : str) : list str :=
  match s with
  | [] => [[]]
  | c :: s' =>
      if (c =? sep)%N then [] :: splitOn sep s'
      else match splitOn sep s' with
           | l :: ls => (c :: l) :: ls
           | [] => [[c]]
           end
  end.


(** [args[++i] || ""] where [rest] is [args] from [i + 1] on. *)
Definition nextArg (rest : list str) : str :=
  match rest with
  | v :: _ => v
  | [] => []
  end.

(** [v.split(",").filter(Boolean)] *)
Definition keepOf (v : str) : list str :=
  filter (λ k, k ≠ []) (splitOn COMMA v).

(** [e.startsWith(".") ? e : `.${e}`] *)
Definition withDot (e : str) : str :=
  if startsWith e (js ".") then e else js "." ++ e.

(** [v.split(",").map(...)] *)
Definition extensionsOf (v : str) : list str := withDot <$> splitOn COMMA v.

Definition defaults : CliOptions :=
  {| dirs := []; fix_ := false; keep := []; staged := false; ci := false;
     json := false; help := false;
     extensions := [js ".js"; js ".jsx"; js ".ts"; js ".tsx"; js ".mjs";
                    js ".cjs"; js ".vue"; js ".svelte"];
     dryRun := false; verbose := false |}.

Definition oneOf (arg : str) (names : list str) : bool :=
  bool_decide (arg ∈ names).

(** The [switch] on one argument; [v] is the argument after it. The second
    component tells whether [v] was taken as the value of the option. *)
Definition onArg (arg v : str) (o : CliOptions) : CliOptions * bool :=
  if oneOf arg [js "--help"; js "-h"] then
    (mkOptions (dirs o) (fix_ o) (keep o) (staged o) (ci o) (json o) true
       (extensions o) (dryRun o) (verbose o), false)
  else if oneOf arg [js "--json"] then
    (mkOptions (dirs o) (fix_ o) (keep o) (staged o) (ci o) true (help o)
       (extensions o) (dryRun o) (verbose o), false)
  else if oneOf arg [js "--fix"; js "-f"] then
    (mkOptions (dirs o) true (keep o) (staged o) (ci o) (json o) (help o)
       (extensions o) (dryRun o) (verbose o), false)
  else if oneOf arg [js "--keep"; js "-k"] then
    (mkOptions (dirs o) (fix_ o) (keepOf v) (staged o) (ci o) (json o) (help o)
       (extensions o) (dryRun o) (verbose o), true)
  else if oneOf arg [js "--staged"; js "-s"] then
    (mkOptions (dirs o) (fix_ o) (keep o) true (ci o) (json o) (help o)
       (extensions o) (dryRun o) (verbose o), false)
  else if oneOf arg [js "--ci"] then
    (mkOptions (dirs o) (fix_ o) (keep o) (staged o) true (json o) (help o)
       (extensions o) (dryRun o) (verbose o), false)
  else if oneOf arg [js "--dry-run"] then
    (mkOptions (dirs o) (fix_ o) (keep o) (staged o) (ci o) (json o) (help o)
       (extensions o) true (verbose o), false)
  else if oneOf arg [js "--verbose"; js "-v"] then
    (mkOptions (dirs o) (fix_ o) (keep o) (staged o) (ci o) (json o) (help o)
       (extensions o) (dryRun o) true, false)
  else if oneOf arg [js "--ext"; js "-e"] then
    (mkOptions (dirs o) (fix_ o) (keep o) (staged o) (ci o) (json o) (help o)
       (extensionsOf v) (dryRun o) (verbose o), true)
  else if negb (startsWith arg (js "-")) then
    (mkOptions (dirs o ++ [arg]) (fix_ o) (keep o) (staged o) (ci o) (json o)
       (help o) (extensions o) (dryRun o) (verbose o), false)
  else (o, false).

(** [for (let i = 0; i < args.length; i++) ...], on [args] from [i] on. *)
Fixpoint argsLoop (args : list str) (o : CliOptions) : CliOptions :=
  match args with
  | [] => o
  | arg :: rest =>
      let '(o', took) := onArg arg (nextArg rest) o in
      match rest with
      | [] => o'
      | _ :: rest' => if took then argsLoop rest' o' else argsLoop rest o'
      end
  end.

Definition parseArgs (argv : list str) : CliOptions :=
  let o := argsLoop (drop 2 argv) defaults in
  if bool_decide (dirs o = []) && negb (staged o) then
    mkOptions (dirs o ++ [js "."]) (fix_ o) (keep o) (staged o) (ci o) (json o)
      (help o) (extensions o) (dryRun o) (verbose o)
  else o.

End Cli.

(** ** The icon of a match type: [typeIcon] *)

Module Display.

Definition ESC : char := 27%N.
Definition reset : str := ESC :: js "[0m".
Definition dim : str := ESC :: js "[2m".
Definition red : str := ESC :: js "[31m".
Definition yellow : str := ESC :: js "[33m".
Definition magenta : str := ESC :: js "[35m".

(** The three signs, as UTF-16 code units. *)
Definition HIGH_VOLTAGE : str := [9889%N].
Definition RED_CIRCLE : str := [55357%N; 56628%N].
Definition BELL : str := [55357%N; 56596%N].

Definition typeIcon (type : str) : str :=
  if startsWith type (js "console.") then yellow ++ HIGH_VOLTAGE ++ reset
  else if str_eqb type (js "debugger") then red ++ RED_CIRCLE ++ reset
  else if str_eqb type (js "alert") then magenta ++ BELL ++ reset
  else dim ++ js "?" ++ reset.

End Display.

(** ** The files to scan: [walkFiles] and [getStagedFiles]

    A directory entry has a name and is a file, a directory or something
    else (a link, a socket); a directory that [readdirSync] cannot read has
    no list of entries. [path.join], [path.extname] and [path.resolve] belong to Node:
    the functions are read for any three such functions. *)

Module Files.

#[warnings="-register-all"]
Inductive entry :=
  | File (name : str)
  | Dir (name : str) (entries : option (list entry))
  | Other (name : str).

Definition name (e : entry) : str :=
  match e with
  | File n | Dir n _ | Other n => n
  end.

Definition SKIP_DIRS : list str :=
  [js "node_modules"; js ".git"; js ".next"; js ".nuxt"; js "dist"; js "build";
   js "coverage"; js ".cache"; js ".output"; js "vendor"; js "__pycache__";
   js ".venv"; js "target"].

(** [entry.name.startsWith(".") && entry.name !== "."] *)
Definition hidden (n : str) : bool :=
  startsWith n (js ".") && negb (str_eqb n (js ".")).

Section Paths.
Variables (join : str → str → str) (extname : str → str) (resolve : str → str).
Variable extensions : list str.

(** One turn of the [for] loop of [walk], on an entry of [directory]. *)
Fixpoint visit (directory : str) (e : entry) {struct e} : list str :=
  if hidden (name e) then []
  else
    let fullPath := join directory (name e) in
    match e with
    | Dir n entries =>
        if bool_decide (n ∈ SKIP_DIRS) then []
        else match entries with
             | None => []
             | Some es => flat_map (visit fullPath) es
             end
    | File n => if bool_decide (extname n ∈ extensions) then [fullPath] else []
    | Other _ => []
    end.

(** [walk(directory)], where [entries] is what [readdirSync] gives there,
    [None] when it throws. *)
Definition walk (directory : str) (entries : option (list entry)) : list str :=
  match entries with
  | None => []
  | Some es => flat_map (visit directory) es
  end.

Definition walkFiles (dir : str) (entries : option (list entry)) : list str :=
  walk dir entries.

(** [git] is the output of the [git diff] command, [None] when it fails. *)
Definition getStagedFiles (git : option str) : list str :=
  match git with
  | None => []
  | Some output =>
      resolve <$>
        filter (λ f, f ≠ [] ∧ extname f ∈ extensions) (split_nl (trim output))
  end.

End Paths.

End Files.

(** ** The loop over the files in [main]

    The store gives the text of each file that [readFileSync] can read;
    [writable] tells where [writeFileSync] succeeds. What is written is read
    back as written. An exception in the body of the loop is caught there,
    and the file is skipped. *)

Module Run.

Record FileResult := mkResult {
  file : str;
  matches : list Match;
  fixed : bool;
}.

Record state := mkState {
  store : gmap str str;
  results : list FileResult;
  totalMatches : nat;
}.

(** [m.file = file] *)
Definition setFile (f : str) (m : Match) : Match :=
  mkMatch f (line m) (column m) (type m) (content m).

Section Loop.
Variable writable : str → bool.
Variable opts : Cli.CliOptions.

Definition push (r : FileResult) (st : state) : state :=
  mkState (store st) (results st ++ [r]) (totalMatches st + length (matches r)).

(** The body of [for (const file of files)]; [None] when it does not end. *)
Definition onFile (patterns : list regex) (f : str) (st : state) : option state :=
  match store st !! f with
  | None => Some st
  | Some content =>
      match findMatches content patterns with
      | None => None
      | Some found =>
          let ms := setFile f <$> found in
          if (0 <? length ms) && Cli.fix_ opts && negb (Cli.dryRun opts) then
            match removeStatements content patterns with
            | Diverges => None
            | TypeError => Some st
            | Ok fixed =>
                if writable f then
                  Some (push (mkResult f ms true)
                          (mkState (<[f := fixed]> (store st)) (results st)
                             (totalMatches st)))
                else Some st
            end
          else if 0 <? length ms then Some (push (mkResult f ms false) st)
          else Some st
      end
  end.

Fixpoint filesLoop (patterns : list regex) (files : list str) (st : state)
    : option state :=
  match files with
  | [] => Some st
  | f :: files' =>
      match onFile patterns f st with
      | None => None
      | Some st' => filesLoop patterns files' st'
      end
  end.

(** [if (opts.ci && totalMatches > 0) process.exit(1)] *)
Definition exitCode (st : state) : nat :=
  if Cli.ci opts && (0 <? totalMatches st) then 1 else 0.

(** From [const patterns = buildPatterns(opts.keep)] to the end of [main]. *)
Definition scanFiles (files : list str) (texts : gmap str str) : option state :=
  filesLoop (buildPatterns (Cli.keep opts)) files (mkState texts [] 0).

End Loop.

End Run.

(** * Definitions used by the proofs *)

Abbreviation spaces := (Forall (λ c : char, is_space c = true)).
Abbreviation nonspaces := (Forall (λ c : char, is_space c = false)).
Abbreviation words := (Forall (λ c : char, is_word c = true)).
Abbreviation nonwords := (Forall (λ c : char, is_word c = false)).
Abbreviation by_column := (λ a b : Match, column a < column b).

(** Is [result[i - 1]] there, and blank? *)
Definition blankO (before : option str) : bool :=
  match before with Some b => blank b | None => false end.

Definition headBlank (r : list str) : bool :=
  match r with l :: _ => blank l | [] => false end.

(** [s] without the prefix [p], if it starts with [p]. *)
Fixpoint stripPrefix (p s : str) : option str :=
  match p, s with
  | [], _ => Some s
  | a :: p', b :: s' => if (b =? a)%N then stripPrefix p' s' else None
  | _ :: _, [] => None
  end.

(** The character before the position reached after reading [p]. *)
Fixpoint lastc (prev : option char) (p : str) : option char :=
  match p with
  | [] => prev
  | c :: p' => lastc (Some c) p'
  end.

(** What is left after the longest run of characters of the class [p], and
    the character before it. *)
Fixpoint skip (p : cls) (s : str) : str :=
  match s with
  | c :: s' => if cls_mem p c then skip p s' else s
  | [] => []
  end.

Fixpoint skipLast (p : cls) (prev : option char) (s : str) : option char :=
  match s with
  | c :: s' => if cls_mem p c then skipLast p (Some c) s' else prev
  | [] => prev
  end.

(** The continuation that ends a match. *)
Definition kfin : @cont str := λ _ s', Some s'.

(** The three patterns of [buildPatterns] never need to backtrack. Read as
    deterministic matchers they are the functions [at_console],
    [at_debugger] and [at_alert] below; [match_at_console],
    [match_at_debugger] and [match_at_alert] show that the backtracking
    matcher computes the same. *)

(** [\s*c] for a character [c] that is not white space. *)
Definition afterWs (c : char) (s : str) : option str :=
  match trimStart s with
  | d :: s' => if (d =? c)%N then Some s' else None
  | [] => None
  end.

(** [(?:m|...)\s*\(] *)
Fixpoint firstMethod (ms : list str) (s : str) : option str :=
  match ms with
  | [] => None
  | m :: ms' =>
      match stripPrefix m s ≫= afterWs LPAREN with
      | Some rest => Some rest
      | None => firstMethod ms' s
      end
  end.

Definition at_console (ms : list str) (prev : option char) (s : str) : option str :=
  if word_before prev then None
  else s1 ← stripPrefix (js "console") s; s2 ← afterWs DOT s1;
       firstMethod ms (trimStart s2).

(** [;?] *)
Definition optSemi (s : str) : str :=
  match s with
  | c :: s' => if (c =? SEMI)%N then s' else s
  | [] => []
  end.

Definition at_debugger (prev : option char) (s : str) : option str :=
  if word_before prev then None
  else s1 ← stripPrefix (js "debugger") s;
       if word_after s1 then None else Some (optSemi (trimStart s1)).

Definition at_alert (prev : option char) (s : str) : option str :=
  if word_before prev then None
  else stripPrefix (js "alert") s ≫= afterWs LPAREN.

(** A method name as the console pattern expects it: a non-empty word. *)
Definition method_ok (m : str) : Prop :=
  m ≠ [] ∧ Forall (λ c, is_word c = true) m.

(** No method name holds [debugger] or [alert]. *)
Definition plain_method (m : str) : Prop :=
  includes m (js "debugger") = false ∧ includes m (js "alert") = false.

(** What the patterns of [buildPatterns] have in common: a match starts at a
    character that is not white space, looks behind only for [\b], and does
    not depend on white space at the end of the input. *)
Record anchored (r : regex) : Prop := {
  anch_nil : ∀ prev, match_at r prev [] = None;
  anch_space : ∀ prev c s, is_space c = true → match_at r prev (c :: s) = None;
  anch_prev : ∀ prev prev' s,
    word_before prev = word_before prev' → match_at r prev s = match_at r prev' s;
  anch_trail : ∀ prev s w,
    spaces w → is_Some (match_at r prev (s ++ w)) ↔ is_Some (match_at r prev s);
}.

(** A pattern that never matches the empty string. *)
Definition progresses (r : regex) : Prop :=
  ∀ prev s rest, match_at r prev s = Some rest → length rest < length s.

(** Does [r] match somewhere at or after the current position? *)
Fixpoint occurs (r : regex) (prev : option char) (s : str) : bool :=
  match match_at r prev s with
  | Some _ => true
  | None =>
      match s with
      | [] => false
      | c :: s' => occurs r (Some c) s'
      end
  end.

(** A closed fact about the characters of a literal. *)
Ltac word_literal := by (vm_compute; repeat constructor).

(** A closed decidable fact. *)
Ltac decide_closed := apply (bool_decide_unpack _); vm_compute; exact I.

(** Concatenations, associated to the right. *)
Ltac app_norm := repeat (rewrite <- app_assoc || rewrite <- app_comm_cons).

(** What the command line leaves in the options, whatever it is. *)
Record parsed (o : Cli.CliOptions) : Prop := {
  parsed_keep : Forall (λ k, k ≠ [] ∧ Cli.COMMA ∉ k) (Cli.keep o);
  parsed_extensions : Forall (λ e, startsWith e (js ".") = true) (Cli.extensions o);
  parsed_some_extension : Cli.extensions o ≠ [];
  parsed_dirs : Forall (λ d, startsWith d (js "-") = false) (Cli.dirs o);
}.


(** [listed dir es p]: the path [p] leads from the directory [dir], whose
    entries are [es], to a file with one of the extensions, through
    directories that can be read and are not skipped, no name on the way
    being hidden. *)
Inductive listed (join : str → str → str) (extname : str → str)
    (extensions : list str) : str → list Files.entry → str → Prop :=
  | listed_file dir es n :
      Files.File n ∈ es → Files.hidden n = false → extname n ∈ extensions →
      listed join extname extensions dir es (join dir n)
  | listed_below dir es n sub p :
      Files.Dir n (Some sub) ∈ es → Files.hidden n = false →
      n ∉ Files.SKIP_DIRS →
      listed join extname extensions (join dir n) sub p →
      listed join extname extensions dir es p.

(** The text starts with a character that is not white space. *)
Definition inkFirst (s : str) : Prop :=
  match s with
  | c :: _ => is_space c = false
  | [] => False
  end.

(** A name as [git] prints it on a line of its own: not empty, no line
    break, no white space at either end. *)
Definition plainName (f : str) : Prop :=
  (NL ∉ f) ∧ inkFirst f ∧ inkFirst (reverse f).

(** ** A run over files *)

Section Scanned.
Variable writable : str → bool.
Variable opts : Cli.CliOptions.
Variable texts : gmap str str.

(** The run, having gone through [done], has put in place of the file [f]
    its text without the debug statements; [now] is what the store holds
    for [f]. *)
Definition rewritten (done : list str) (f : str) (now : option str) : Prop :=
  Cli.fix_ opts = true ∧ Cli.dryRun opts = false ∧ f ∈ done ∧ writable f = true ∧
  ∃ c found out,
    texts !! f = Some c ∧
    findMatches c (buildPatterns (Cli.keep opts)) = Some found ∧ found ≠ [] ∧
    removeStatements c (buildPatterns (Cli.keep opts)) = Ok out ∧
    now = Some out.

(** The result [r] holds the matches of the text its file had before the
    run. *)
Definition reported (r : Run.FileResult) : Prop :=
  ∃ c found,
    texts !! Run.file r = Some c ∧
    findMatches c (buildPatterns (Cli.keep opts)) = Some found ∧ found ≠ [] ∧
    Run.matches r = Run.setFile (Run.file r) <$> found ∧
    Run.fixed r = Cli.fix_ opts && negb (Cli.dryRun opts).

(** The text the file [f] had before the run holds a debug statement, and the
    loop does not leave [f] out for want of a permission to write. *)
Definition counted (f : str) : Prop :=
  ∃ c found,
    texts !! f = Some c ∧
    findMatches c (buildPatterns (Cli.keep opts)) = Some found ∧ found ≠ [] ∧
    (Cli.fix_ opts = true → Cli.dryRun opts = false → writable f = true).

(** What holds of the state once the loop has gone through the files
    [done]. *)
Record scanned (done : list str) (st : Run.state) : Prop := {
  scanned_store :
    ∀ f, Run.store st !! f = texts !! f ∨ rewritten done f (Run.store st !! f);
  scanned_results :
    Forall (λ r, Run.file r ∈ done ∧ reported r ∧
                 (Run.fixed r = true →
                  rewritten done (Run.file r) (Run.store st !! Run.file r)))
      (Run.results st);
  scanned_all :
    ∀ f, f ∈ done → counted f → ∃ r, r ∈ Run.results st ∧ Run.file r = f;
  scanned_total :
    Run.totalMatches st
    = sum_list_with (λ r, length (Run.matches r)) (Run.results st);
  scanned_clean :
    Cli.fix_ opts = true → Cli.dryRun opts = false →
    ∀ f c, f ∈ done → writable f = true → Run.store st !! f = Some c →
           findMatches c (buildPatterns (Cli.keep opts)) = Some [];
}.

End Scanned.

(** * Properties *)

(** ** Lines: [split] and [join] *)

Lemma split_nl_nonempty (s : str) : split_nl s ≠ [].
Proof.
  destruct s as [|c s]; simpl; [done|].
  destruct (c =? NL)%N; [done|]. by destruct (split_nl s).
Qed.

Lemma split_nl_app_NL (l s : str) :
  NL ∉ l → split_nl (l ++ NL :: s) = l :: split_nl s.
Proof.
  induction l as [|c l IH]; intros Hl; simpl.
  - done.
  - apply not_elem_of_cons in Hl as [Hc Hl].
    destruct (N.eqb_spec c NL) as [->|_]; [done|].
    by rewrite IH.
Qed.

Lemma split_nl_line (l : str) : NL ∉ l → split_nl l = [l].
Proof.
  induction l as [|c l IH]; intros Hl; simpl; [done|].
  apply not_elem_of_cons in Hl as [Hc Hl].
  destruct (N.eqb_spec c NL) as [->|_]; [done|].
  by rewrite IH.
Qed.

Lemma split_nl_no_NL (s : str) : Forall (λ l, NL ∉ l) (split_nl s).
Proof.
  induction s as [|c s IH]; simpl.
  - repeat constructor. by apply not_elem_of_nil.
  - destruct (N.eqb_spec c NL) as [->|Hc].
    + constructor; [apply not_elem_of_nil | done].
    + destruct (split_nl s) as [|l ls].
      * repeat constructor. rewrite not_elem_of_cons. split; [done | apply not_elem_of_nil].
      * inversion IH; subst. constructor; [|done].
        rewrite not_elem_of_cons. split; [congruence | done].
Qed.

Lemma split_join (ls : list str) :
  ls ≠ [] → Forall (λ l, NL ∉ l) ls → split_nl (join_nl ls) = ls.
Proof.
  induction ls as [|l ls IH]; [done|]. intros _ Hall.
  inversion Hall as [|? ? Hl Hls]; subst.
  destruct ls as [|l' ls].
  - simpl. by apply split_nl_line.
  - change (join_nl (l :: l' :: ls)) with (l ++ NL :: join_nl (l' :: ls)).
    rewrite split_nl_app_NL by done. f_equal. by apply IH.
Qed.

Lemma join_split (s : str) : join_nl (split_nl s) = s.
Proof.
  induction s as [|c s IH]; simpl; [done|].
  destruct (N.eqb_spec c NL) as [->|Hc].
  - pose proof (split_nl_nonempty s).
    destruct (split_nl s) as [|l ls] eqn:E; [done|]. simpl in *. by rewrite IH.
  - pose proof (split_nl_nonempty s).
    destruct (split_nl s) as [|l ls] eqn:E; [done|].
    destruct ls; simpl in *; by rewrite <- IH.
Qed.

(** ** The loop and the transition system agree *)

Lemma scan_Semi_cons (P : list regex) (l : str) (ls : list str) :
  scan P Semi (l :: ls) =
  if str_eqb (trim l) (js ";") then scan P Live ls else scan P Live (l :: ls).
Proof. cbn [scan step]. by destruct (str_eqb (trim l) (js ";")). Qed.

Lemma skipLoop_scan (P : list regex) (lines : list str) (fuel i : nat) (d : Z) :
  0 < fuel → length lines ≤ i + fuel →
  ∃ i', skipLoop fuel lines i d = Ok i' ∧ i ≤ i' ∧
        (i < length lines → i' < length lines) ∧
        scan P (skipMode d) (drop (S i) lines) = scan P Semi (drop (S i') lines).
Proof.
  revert i d. induction fuel as [|fuel IH]; intros i d Hpos Hlen; [lia|].
  simpl. destruct (bool_decide (0 < d)%Z) eqn:Hd; simpl.
  - destruct (bool_decide (i + 1 < length lines)) eqn:Hi.
    + apply bool_decide_eq_true in Hi.
      destruct (lookup_lt_is_Some_2 lines (i + 1) Hi) as [next Hnext].
      rewrite Hnext.
      destruct (IH (i + 1)
                  (d + Z.of_nat (openParens next) - Z.of_nat (closeParens next))%Z)
        as (i' & Hrun & Hle & Hlt & Hscan); [lia | lia |].
      exists i'. split; [done|]. split; [lia|]. split; [intros _; apply Hlt; lia|].
      rewrite <- Hscan. unfold skipMode at 1. rewrite Hd.
      replace (i + 1) with (S i) in * by lia.
      rewrite (drop_S _ _ _ Hnext). cbn [scan step snd fst app].
      by replace (d + delta next)%Z
        with (d + Z.of_nat (openParens next) - Z.of_nat (closeParens next))%Z
        by (unfold delta; lia).
    + apply bool_decide_eq_false in Hi.
      exists i. split; [done|]. split; [lia|]. split; [done|].
      rewrite drop_ge by lia. done.
  - exists i. split; [done|]. split; [lia|]. split; [done|].
    unfold skipMode. by rewrite Hd.
Qed.

Lemma forLoop_scan (P : list regex) (lines : list str) (fuel i : nat)
    (result : list str) :
  length lines - i < fuel →
  forLoop fuel P lines i result = Ok (result ++ scan P Live (drop i lines)).
Proof.
  revert i result. induction fuel as [|fuel IH]; intros i result Hlen; [lia|].
  cbn [forLoop]. destruct (bool_decide (i < length lines)) eqn:Hi.
  2:{ apply bool_decide_eq_false in Hi. rewrite drop_ge by lia.
      simpl. by rewrite app_nil_r. }
  apply bool_decide_eq_true in Hi.
  destruct (lookup_lt_is_Some_2 lines i Hi) as [l Hl]. rewrite Hl.
  rewrite (drop_S _ _ _ Hl). cbn [scan step]. unfold stepLive.
  replace (i + 1) with (S i) by lia.
  destruct (isComment (trim l)).
  { rewrite IH by lia. simpl. by rewrite <- app_assoc. }
  destruct (wholeLine P (trim l)); simpl.
  { by rewrite IH by lia. }
  destruct (someTest P (trim l)); simpl.
  2:{ rewrite IH by lia. by rewrite <- app_assoc. }
  destruct (bool_decide (closeParens l < openParens l)); simpl.
  2:{ by rewrite IH by lia. }
  destruct (skipLoop_scan P lines (length lines) i (delta l))
    as (i' & Hrun & Hle & Hlt & Hscan); [lia | lia |].
  unfold delta in Hrun. rewrite Hrun, Hscan.
  replace (i' + 1) with (S i') by lia.
  destruct (bool_decide (S i' < length lines)) eqn:Hi'.
  - apply bool_decide_eq_true in Hi'.
    destruct (lookup_lt_is_Some_2 lines (S i') Hi') as [next Hnext].
    rewrite Hnext. rewrite (drop_S _ _ _ Hnext), scan_Semi_cons.
    destruct (str_eqb (trim next) (js ";")).
    + rewrite IH by lia. by replace (S i' + 1) with (S (S i')) by lia.
    + rewrite IH by lia. by rewrite (drop_S _ _ _ Hnext).
  - apply bool_decide_eq_false in Hi'.
    rewrite IH by lia. by rewrite drop_ge by lia.
Qed.

(** [removeStatements] always returns, and what it returns. *)
Lemma removeStatements_eq (content : str) (P : list regex) :
  removeStatements content P =
  Ok (join_nl (collapseBlank None (scan P Live (split_nl content)))).
Proof.
  unfold removeStatements. rewrite forLoop_scan by lia. done.
Qed.

(** ** What the scan keeps *)

Lemma Forall_sublist {A} (Q : A → Prop) (l k : list A) :
  l `sublist_of` k → Forall Q k → Forall Q l.
Proof.
  induction 1; intros Hk; [done | |]; inversion Hk; subst; auto.
Qed.

Lemma wholeLine_someTest (P : list regex) (t : str) :
  wholeLine P t = true → someTest P t = true.
Proof.
  unfold someTest. induction P as [|p P IH]; simpl; [done|].
  destruct (test p t); [done|]. exact IH.
Qed.

Lemma stepLive_quiet (P : list regex) (l : str) :
  quiet P l = true → stepLive P l = (Live, [l]).
Proof.
  unfold quiet, stepLive. destruct (isComment (trim l)); [done|]. simpl.
  intros Hq. apply negb_true_iff in Hq.
  destruct (wholeLine P (trim l)) eqn:Hw.
  - apply wholeLine_someTest in Hw. congruence.
  - by rewrite Hq.
Qed.

(** Every line pushed by the loop is quiet, and is pushed as it is. *)
Lemma step_emits (P : list regex) (m : mode) (l : str) :
  (step P m l).2 = [] ∨ ((step P m l).2 = [l] ∧ quiet P l = true).
Proof.
  assert (Hlive : (stepLive P l).2 = [] ∨
                  ((stepLive P l).2 = [l] ∧ quiet P l = true)).
  { unfold stepLive, quiet. destruct (isComment (trim l)); [by right|].
    destruct (wholeLine P (trim l)), (someTest P (trim l)); simpl;
      try destruct (bool_decide _); auto. }
  destruct m; simpl; [done | by left |].
  destruct (str_eqb (trim l) (js ";")); [by left | done].
Qed.

Lemma scan_quiet_out (P : list regex) (m : mode) (lines : list str) :
  Forall (λ l, quiet P l = true) (scan P m lines).
Proof.
  revert m. induction lines as [|l lines IH]; intros m; simpl; [done|].
  destruct (step_emits P m l) as [->|[-> Hq]]; simpl; auto.
Qed.

Lemma scan_sublist (P : list regex) (m : mode) (lines : list str) :
  scan P m lines `sublist_of` lines.
Proof.
  revert m. induction lines as [|l lines IH]; intros m; simpl; [constructor|].
  destruct (step_emits P m l) as [->|[-> _]]; simpl.
  - by apply sublist_cons.
  - by apply sublist_skip.
Qed.

(** Where every line is quiet the loop keeps them all. *)
Lemma scan_quiet (P : list regex) (lines : list str) :
  Forall (λ l, quiet P l = true) lines → scan P Live lines = lines.
Proof.
  induction 1 as [|l lines Hl Hall IH]; [done|].
  cbn [scan step]. rewrite (stepLive_quiet _ _ Hl). simpl. by rewrite IH.
Qed.

Lemma modeAfter_quiet (P : list regex) (lines : list str) :
  Forall (λ l, quiet P l = true) lines → modeAfter P Live lines = Live.
Proof.
  induction 1 as [|l lines Hl Hall IH]; [done|].
  cbn [modeAfter step]. by rewrite (stepLive_quiet _ _ Hl).
Qed.

Lemma scan_app (P : list regex) (m : mode) (pre post : list str) :
  scan P m (pre ++ post) = scan P m pre ++ scan P (modeAfter P m pre) post.
Proof.
  revert m. induction pre as [|l pre IH]; intros m; [done|].
  cbn [scan modeAfter app]. by rewrite IH, app_assoc.
Qed.

(** ** Blank-line collapsing *)

Lemma collapseBlank_cons (b : option str) (l : str) (rest : list str) :
  collapseBlank b (l :: rest) =
  if blank l && blankO b then collapseBlank (Some l) rest
  else l :: collapseBlank (Some l) rest.
Proof.
  destruct b as [b|]; simpl; [done|]. by rewrite andb_false_r.
Qed.

Lemma collapseBlank_ext (b b' : option str) (r : list str) :
  blankO b = blankO b' → collapseBlank b r = collapseBlank b' r.
Proof.
  intros Hb. destruct r as [|l r]; [done|].
  by rewrite !collapseBlank_cons, Hb.
Qed.

Lemma collapseBlank_idem (b : option str) (r : list str) :
  collapseBlank b (collapseBlank b r) = collapseBlank b r.
Proof.
  revert b. induction r as [|l r IH]; intros b; [done|].
  rewrite collapseBlank_cons.
  destruct (blank l && blankO b) eqn:Hdrop.
  - apply andb_true_iff in Hdrop as [Hl Hb].
    rewrite (collapseBlank_ext b (Some l)) by (simpl; congruence). apply IH.
  - rewrite collapseBlank_cons, Hdrop. by rewrite IH.
Qed.

Lemma collapseBlank_sublist (b : option str) (r : list str) :
  collapseBlank b r `sublist_of` r.
Proof.
  revert b. induction r as [|l r IH]; intros b; [constructor|].
  rewrite collapseBlank_cons. destruct (blank l && blankO b).
  - by apply sublist_cons.
  - by apply sublist_skip.
Qed.

Lemma noBlankPair_cons (l : str) (r : list str) :
  noBlankPair (l :: r) ↔ ¬ (blank l = true ∧ headBlank r = true) ∧ noBlankPair r.
Proof.
  destruct r as [|l' r]; simpl; [|done].
  split; [intros _; split; [intros [_ ?]; done | done] | done].
Qed.

Lemma collapseBlank_noBlankPair (b : option str) (r : list str) :
  noBlankPair (collapseBlank b r) ∧
  (blankO b = true → headBlank (collapseBlank b r) = false).
Proof.
  revert b. induction r as [|l r IH]; intros b; [done|].
  rewrite collapseBlank_cons. destruct (IH (Some l)) as [IH1 IH2].
  destruct (blank l && blankO b) eqn:Hdrop.
  - apply andb_true_iff in Hdrop as [Hl Hb]. split; [done|]. auto.
  - split.
    + apply noBlankPair_cons. split; [|done].
      intros [Hl Hh]. rewrite IH2 in Hh; done.
    + intros Hb. rewrite Hb, andb_true_r in Hdrop. done.
Qed.

(** A line that is not blank survives the post-pass, in place. *)
Lemma collapseBlank_app_keep (b : option str) (x y : list str) (l : str) :
  blank l = false →
  collapseBlank b (x ++ l :: y) =
  collapseBlank b x ++ l :: collapseBlank (Some l) y.
Proof.
  intros Hl. revert b. induction x as [|a x IH]; intros b.
  - simpl app. by rewrite collapseBlank_cons, Hl.
  - rewrite <- app_comm_cons, !collapseBlank_cons.
    destruct (blank a && blankO b); by rewrite IH.
Qed.

(** ** The matcher on the shapes the patterns use *)

Lemma space_not_word (c : char) : is_space c = true → is_word c = false.
Proof.
  unfold is_space, is_word. intros H. apply not_true_is_false. intros W.
  repeat rewrite ?orb_true_iff, ?andb_true_iff, ?N.leb_le, ?N.eqb_eq in H.
  repeat rewrite ?orb_true_iff, ?andb_true_iff, ?N.leb_le, ?N.eqb_eq in W.
  lia.
Qed.

Lemma word_not_space (c : char) : is_word c = true → is_space c = false.
Proof.
  intros W. destruct (is_space c) eqn:S; [|done].
  apply space_not_word in S. congruence.
Qed.

Lemma stripPrefix_Some (p s r : str) : stripPrefix p s = Some r ↔ s = p ++ r.
Proof.
  revert s. induction p as [|a p IH]; intros s; simpl.
  - split; congruence.
  - destruct s as [|b s]; [split; [done | intros [=]]|].
    destruct (N.eqb_spec b a) as [->|Hne].
    + rewrite IH. split; congruence.
    + split; [done | intros [=]; congruence].
Qed.

Lemma stripPrefix_app (p r : str) : stripPrefix p (p ++ r) = Some r.
Proof. by apply stripPrefix_Some. Qed.

Section Engine.
Context {A : Type}.
Implicit Types k : @cont A.

Lemma run_lit (p : str) k (prev : option char) (s : str) :
  run (lit p) k prev s =
  match stripPrefix p s with
  | Some rest => k (lastc prev p) rest
  | None => None
  end.
Proof.
  revert prev s. induction p as [|a p IH]; intros prev s; [done|].
  cbn [lit run Chr stripPrefix lastc cls_mem]. destruct s as [|b s]; [done|].
  destruct (N.eqb_spec b a) as [->|Hne]; [|done]. apply IH.
Qed.

(** Greedy repetition takes every character of the class when what
    follows cannot start with one ... *)
Lemma star_run_commit (p : cls) k (prev : option char) (s : str) :
  (∀ pr c s', cls_mem p c = true → k pr (c :: s') = None) →
  star_run p k prev s = k (skipLast p prev s) (skip p s).
Proof.
  intros Hk. revert prev. induction s as [|c s IH]; intros prev; [done|].
  simpl. destruct (cls_mem p c) eqn:Hc; [|done].
  rewrite IH. destruct (k (skipLast p (Some c) s) (skip p s)); [done|].
  by apply Hk.
Qed.

(** ... and when what follows succeeds after all of them. *)
Lemma star_run_total (p : cls) k (prev : option char) (s : str) :
  is_Some (k (skipLast p prev s) (skip p s)) →
  star_run p k prev s = k (skipLast p prev s) (skip p s).
Proof.
  revert prev. induction s as [|c s IH]; intros prev Hk; [done|].
  simpl in *. destruct (cls_mem p c) eqn:Hc; [|done].
  rewrite IH by done. by destruct Hk as [x ->].
Qed.

Lemma run_Chr_space (c : char) k (pr : option char) (d : char) (s : str) :
  is_space c = false → is_space d = true → run (Chr c) k pr (d :: s) = None.
Proof.
  intros Hc Hd. simpl. destruct (N.eqb_spec d c) as [->|]; [congruence | done].
Qed.
End Engine.

Lemma skip_space (s : str) : skip CSpace s = trimStart s.
Proof. induction s as [|c s IH]; simpl; [done|]. by rewrite IH. Qed.

Lemma skip_app (p : cls) (w y : str) :
  Forall (λ c, cls_mem p c = true) w →
  match y with c :: _ => cls_mem p c = false | [] => True end →
  skip p (w ++ y) = y.
Proof.
  intros Hw Hy. induction Hw as [|c w Hc Hw IH]; simpl.
  - destruct y as [|c y]; [done|]. simpl. by rewrite Hy.
  - by rewrite Hc.
Qed.

Lemma trimStart_app (w y : str) :
  spaces w →
  match y with c :: _ => is_space c = false | [] => True end →
  trimStart (w ++ y) = y.
Proof. intros. rewrite <- skip_space. by apply skip_app. Qed.

Lemma trimStart_split (s : str) : ∃ w, spaces w ∧ s = w ++ trimStart s.
Proof.
  induction s as [|c s (w & Hw & IH)]; simpl.
  - by exists [].
  - destruct (is_space c) eqn:Hc.
    + exists (c :: w). split; [by constructor|]. simpl. congruence.
    + by exists [].
Qed.

Lemma trimStart_spaces (w : str) : spaces w → trimStart w = [].
Proof. intros Hw. rewrite <- (app_nil_r w). by apply trimStart_app. Qed.

(** A line is its trimmed text between two runs of white space. *)
Lemma trim_split (l : str) :
  ∃ w1 w2, spaces w1 ∧ spaces w2 ∧ l = w1 ++ trim l ++ w2.
Proof.
  destruct (trimStart_split l) as (w1 & Hw1 & E1).
  destruct (trimStart_split (reverse (trimStart l))) as (w2 & Hw2 & E2).
  exists w1, (reverse w2). split; [done|]. split.
  - by rewrite Forall_reverse.
  - unfold trim, trimEnd. rewrite <- reverse_app, <- E2, reverse_involutive. done.
Qed.

(** ** The patterns of [buildPatterns], read as deterministic matchers *)

Section Equations.
Context {A : Type}.
Implicit Types k : @cont A.

Lemma run_Seq (a b : regex) k prev s :
  run (Seq a b) k prev s = run a (run b k) prev s.
Proof. done. Qed.

Lemma run_Alt (a b : regex) k prev s :
  run (Alt a b) k prev s =
  match run a k prev s with Some x => Some x | None => run b k prev s end.
Proof. done. Qed.

Lemma run_Star (p : cls) k prev s : run (Star p) k prev s = star_run p k prev s.
Proof. done. Qed.

Lemma run_Chr (c : char) k prev s :
  run (Chr c) k prev s =
  match s with
  | d :: s' => if (d =? c)%N then k (Some d) s' else None
  | [] => None
  end.
Proof. done. Qed.

Lemma run_WordB k prev s :
  run WordB k prev s =
  if xorb (word_before prev) (word_after s) then k prev s else None.
Proof. done. Qed.

(** [\s*] before something that cannot start with white space. *)
Lemma run_ws (r : regex) k prev s :
  (∀ pr c s', is_space c = true → run r k pr (c :: s') = None) →
  run (Seq ws r) k prev s = run r k (skipLast CSpace prev s) (trimStart s).
Proof.
  intros Hr. unfold ws. rewrite run_Seq, run_Star, star_run_commit by done.
  by rewrite skip_space.
Qed.

Lemma run_ws_Chr (c : char) (r : regex) k prev s :
  is_space c = false →
  run (Seq ws (Seq (Chr c) r)) k prev s =
  match trimStart s with
  | d :: s' => if (d =? c)%N then run r k (Some d) s' else None
  | [] => None
  end.
Proof.
  intros Hc. rewrite run_ws.
  - by rewrite run_Seq, run_Chr.
  - intros pr d s' Hd. rewrite run_Seq. by apply run_Chr_space.
Qed.

Lemma run_ws_Chr_end (c : char) k prev s :
  is_space c = false →
  run (Seq ws (Chr c)) k prev s =
  match trimStart s with
  | d :: s' => if (d =? c)%N then k (Some d) s' else None
  | [] => None
  end.
Proof.
  intros Hc. rewrite run_ws.
  - by rewrite run_Chr.
  - intros pr d s' Hd. by apply run_Chr_space.
Qed.
End Equations.

Lemma run_ws_paren (pr : option char) (s : str) :
  run (Seq ws (Chr LPAREN)) kfin pr s = afterWs LPAREN s.
Proof. by rewrite run_ws_Chr_end. Qed.

(** [\b] before a literal that starts with a word character. *)
Lemma wordB_lit {A} (p : str) (prev : option char) (s : str)
    (F : str → option A) :
  word_after p = true →
  (if xorb (word_before prev) (word_after s)
   then match stripPrefix p s with Some r => F r | None => None end
   else None) =
  if word_before prev then None
  else match stripPrefix p s with Some r => F r | None => None end.
Proof.
  intros Hp. destruct (stripPrefix p s) as [r|] eqn:E.
  - apply stripPrefix_Some in E as ->.
    destruct p as [|a p]; [done|]. simpl in *. rewrite Hp.
    by destruct (word_before prev).
  - by destruct (word_before prev), (word_after s).
Qed.

Lemma run_alts (m : str) (ms : list str) (pr : option char) (s : str) :
  run (Seq (alts m ms) (Seq ws (Chr LPAREN))) kfin pr s = firstMethod (m :: ms) s.
Proof.
  revert m. induction ms as [|m' ms IH]; intros m; cbn [alts firstMethod].
  - rewrite run_Seq, run_lit. destruct (stripPrefix m s) as [r|]; [|done].
    rewrite run_ws_paren. simpl. by destruct (afterWs LPAREN r).
  - rewrite run_Seq, run_Alt, <- (run_Seq (alts m' ms)), IH, run_lit.
    destruct (stripPrefix m s) as [r|]; [|done].
    by rewrite run_ws_paren.
Qed.

Lemma firstMethod_space (ms : list str) (c : char) (s : str) :
  Forall method_ok ms → is_space c = true → firstMethod ms (c :: s) = None.
Proof.
  intros Hms Hc. induction Hms as [|m ms [Hne Hw] _ IH]; [done|].
  simpl. destruct m as [|a m]; [done|]. simpl.
  destruct (N.eqb_spec c a) as [->|_]; [|done].
  inversion Hw; subst. apply word_not_space in H1. congruence.
Qed.

Lemma match_at_console (m : str) (ms : list str) (prev : option char) (s : str) :
  Forall method_ok (m :: ms) →
  match_at (re_console m ms) prev s = at_console (m :: ms) prev s.
Proof.
  intros Hms. unfold match_at, re_console, at_console. cbn [seqs].
  fold kfin. rewrite run_Seq, run_WordB, run_Seq, run_lit, wordB_lit by done.
  destruct (word_before prev); [done|].
  destruct (stripPrefix (js "console") s) as [s1|]; [|done].
  rewrite run_ws_Chr by done. cbn [mbind option_bind]. unfold afterWs.
  destruct (trimStart s1) as [|d s2]; [done|].
  destruct (d =? DOT)%N; [|done]. cbn [mbind option_bind].
  rewrite run_ws.
  - apply run_alts.
  - intros pr c s' Hc. rewrite run_alts. by apply firstMethod_space.
Qed.

Lemma match_at_debugger (prev : option char) (s : str) :
  match_at re_debugger prev s = at_debugger prev s.
Proof.
  unfold match_at, re_debugger, at_debugger. cbn [seqs].
  fold kfin. rewrite run_Seq, run_WordB, run_Seq, run_lit, wordB_lit by done.
  destruct (word_before prev); [done|].
  destruct (stripPrefix (js "debugger") s) as [s1|]; [|done].
  cbn [mbind option_bind]. rewrite run_Seq, run_WordB.
  change (word_before (lastc prev (js "debugger"))) with true.
  destruct (word_after s1); [done|]. cbn [xorb].
  unfold ws, Opt. rewrite run_Seq, run_Star, star_run_total; rewrite skip_space.
  - rewrite run_Alt, run_Chr. destruct (trimStart s1) as [|c s2]; [done|].
    simpl. by destruct (c =? SEMI)%N.
  - rewrite run_Alt, run_Chr. destruct (trimStart s1) as [|c s2]; [done|].
    simpl. by destruct (c =? SEMI)%N.
Qed.

Lemma match_at_alert (prev : option char) (s : str) :
  match_at re_alert prev s = at_alert prev s.
Proof.
  unfold match_at, re_alert, at_alert. cbn [seqs].
  fold kfin. rewrite run_Seq, run_WordB, run_Seq, run_lit, wordB_lit by done.
  destruct (word_before prev); [done|].
  destruct (stripPrefix (js "alert") s) as [s1|]; [|done].
  apply run_ws_paren.
Qed.

(** ** Matching a line and matching its trimmed text *)

Lemma words_nonspaces (p : str) :
  Forall (λ c, is_word c = true) p → nonspaces p.
Proof. induction 1; constructor; auto using word_not_space. Qed.

Lemma stripPrefix_space (p : str) (c : char) (s : str) :
  word_after p = true → is_space c = true → stripPrefix p (c :: s) = None.
Proof.
  destruct p as [|a p]; [done|]. simpl. intros Ha Hc.
  destruct (N.eqb_spec c a) as [->|]; [|done].
  apply word_not_space in Ha. congruence.
Qed.

Lemma stripPrefix_trail (p s w : str) :
  nonspaces p → spaces w →
  stripPrefix p (s ++ w) = (λ r, r ++ w) <$> stripPrefix p s.
Proof.
  intros Hp Hw. revert s. induction Hp as [|a p Ha Hp IH]; intros s; [done|].
  destruct s as [|b s]; simpl.
  - destruct Hw as [|c w Hc Hw]; [done|]. simpl.
    destruct (N.eqb_spec c a) as [->|]; [congruence | done].
  - destruct (b =? a)%N; [apply IH | done].
Qed.

Lemma trimStart_trail (s w : str) :
  spaces w →
  trimStart (s ++ w) = match trimStart s with [] => [] | x => x ++ w end.
Proof.
  intros Hw. induction s as [|c s IH]; simpl.
  - by apply trimStart_spaces.
  - destruct (is_space c); [done|]. done.
Qed.

Lemma afterWs_trail (c : char) (s w : str) :
  spaces w → afterWs c (s ++ w) = (λ r, r ++ w) <$> afterWs c s.
Proof.
  intros Hw. unfold afterWs. rewrite trimStart_trail by done.
  destruct (trimStart s) as [|d s']; [done|]. simpl.
  by destruct (d =? c)%N.
Qed.

Lemma firstMethod_nil (ms : list str) : Forall method_ok ms → firstMethod ms [] = None.
Proof.
  induction 1 as [|m ms [Hne _] _ IH]; [done|]. simpl.
  by destruct m.
Qed.

Lemma firstMethod_trail (ms : list str) (s w : str) :
  Forall method_ok ms → spaces w →
  firstMethod ms (s ++ w) = (λ r, r ++ w) <$> firstMethod ms s.
Proof.
  intros Hms Hw. induction Hms as [|m ms [_ Hm] _ IH]; [done|].
  simpl. rewrite stripPrefix_trail by auto using words_nonspaces.
  destruct (stripPrefix m s) as [r|]; simpl; [|done].
  rewrite afterWs_trail by done.
  by destruct (afterWs LPAREN r).
Qed.

Lemma at_console_trail (ms : list str) (prev : option char) (s w : str) :
  Forall method_ok ms → spaces w →
  at_console ms prev (s ++ w) = (λ r, r ++ w) <$> at_console ms prev s.
Proof.
  intros Hms Hw. unfold at_console. destruct (word_before prev); [done|].
  rewrite stripPrefix_trail; [|word_literal | done].
  destruct (stripPrefix (js "console") s) as [s1|]; [|done].
  cbn [fmap option_fmap option_map mbind option_bind].
  rewrite afterWs_trail by done.
  destruct (afterWs DOT s1) as [s2|]; [|done].
  cbn [fmap option_fmap option_map mbind option_bind].
  rewrite trimStart_trail by done.
  destruct (trimStart s2) as [|c s3] eqn:E.
  - by rewrite firstMethod_nil.
  - by apply firstMethod_trail.
Qed.

Lemma anchored_console (m : str) (ms : list str) :
  Forall method_ok (m :: ms) → anchored (re_console m ms).
Proof.
  intros Hms. split; intros; rewrite ?match_at_console by done.
  - unfold at_console. by destruct (word_before prev).
  - unfold at_console. rewrite stripPrefix_space by done.
    by destruct (word_before prev).
  - unfold at_console. by rewrite H.
  - rewrite at_console_trail by done. apply fmap_is_Some.
Qed.

Lemma word_after_trail (s w : str) : spaces w → word_after (s ++ w) = word_after s.
Proof.
  intros Hw. destruct s as [|c s]; [|done]. simpl.
  destruct Hw as [|c w Hc _]; [done|]. simpl. by apply space_not_word.
Qed.

Lemma anchored_debugger : anchored re_debugger.
Proof.
  split; intros; rewrite ?match_at_debugger.
  - unfold at_debugger. by destruct (word_before prev).
  - unfold at_debugger. rewrite stripPrefix_space by done.
    by destruct (word_before prev).
  - unfold at_debugger. by rewrite H.
  - unfold at_debugger. destruct (word_before prev); [done|].
    rewrite stripPrefix_trail; [|word_literal | done].
    destruct (stripPrefix (js "debugger") s) as [s1|]; [|done].
    cbn [fmap option_fmap option_map mbind option_bind].
    rewrite word_after_trail by done.
    destruct (word_after s1); [done|]. split; eauto.
Qed.

Lemma anchored_alert : anchored re_alert.
Proof.
  split; intros; rewrite ?match_at_alert.
  - unfold at_alert. by destruct (word_before prev).
  - unfold at_alert. rewrite stripPrefix_space by done.
    by destruct (word_before prev).
  - unfold at_alert. by rewrite H.
  - unfold at_alert. destruct (word_before prev); [done|].
    rewrite stripPrefix_trail; [|word_literal | done].
    destruct (stripPrefix (js "alert") s) as [s1|]; [|done].
    cbn [fmap option_fmap option_map mbind option_bind].
    rewrite afterWs_trail by done. apply fmap_is_Some.
Qed.

Lemma search_occurs (r : regex) (prev : option char) (s : str) (idx : nat) :
  search r prev s idx = None ↔ occurs r prev s = false.
Proof.
  revert prev idx. induction s as [|c s IH]; intros prev idx; simpl.
  - by destruct (match_at r prev []).
  - destruct (match_at r prev (c :: s)); [done|]. apply IH.
Qed.

Lemma test_occurs (r : regex) (s : str) : test r s = occurs r None s.
Proof.
  unfold test. destruct (search r None s 0) eqn:E.
  - destruct (occurs r None s) eqn:O; [done|].
    apply (search_occurs r None s 0) in O. rewrite O in E. done.
  - apply search_occurs in E. by rewrite E.
Qed.

Section Anchored.
Context (r : regex) (Hr : anchored r).

Lemma occurs_spaces (prev : option char) (w : str) :
  spaces w → occurs r prev w = false.
Proof.
  intros Hw. revert prev. induction Hw as [|c w Hc Hw IH]; intros prev; simpl.
  - by rewrite (anch_nil r Hr).
  - by rewrite (anch_space r Hr).
Qed.

Lemma occurs_prev (prev prev' : option char) (s : str) :
  word_before prev = word_before prev' → occurs r prev s = occurs r prev' s.
Proof.
  intros Hp. destruct s as [|c s]; simpl; by rewrite (anch_prev r Hr _ _ _ Hp).
Qed.

Lemma occurs_lead (prev : option char) (w s : str) :
  spaces w → word_before prev = false → occurs r prev (w ++ s) = occurs r None s.
Proof.
  intros Hw. revert prev. induction Hw as [|c w Hc Hw IH]; intros prev Hp.
  - by apply occurs_prev.
  - simpl. rewrite (anch_space r Hr) by done. apply IH. simpl.
    by apply space_not_word.
Qed.

Lemma occurs_trail (prev : option char) (s w : str) :
  spaces w → occurs r prev (s ++ w) = occurs r prev s.
Proof.
  intros Hw. revert prev. induction s as [|c s IH]; intros prev.
  - simpl app. rewrite occurs_spaces by done. simpl.
    by rewrite (anch_nil r Hr).
  - pose proof (anch_trail r Hr prev (c :: s) w Hw) as Ht.
    simpl in *. rewrite IH.
    destruct (match_at r prev (c :: s ++ w)), (match_at r prev (c :: s));
      try done.
    + destruct Ht as [Ht _]. destruct Ht; [eauto | done].
    + destruct Ht as [_ Ht]. destruct Ht; [eauto | done].
Qed.

(** Testing the trimmed line is testing the line. *)
Lemma test_trim (l : str) : test r (trim l) = test r l.
Proof.
  rewrite !test_occurs.
  destruct (trim_split l) as (w1 & w2 & Hw1 & Hw2 & E).
  rewrite E at 2. rewrite occurs_lead by done. by rewrite occurs_trail.
Qed.
End Anchored.

(** ** The pattern sets of [buildPatterns] *)

Lemma CONSOLE_METHODS_ok : Forall method_ok CONSOLE_METHODS.
Proof. repeat constructor; try done; vm_compute; repeat constructor. Qed.

Lemma buildPatterns_cases (keep : list str) :
  (filter (λ m, m ∉ keep) CONSOLE_METHODS = [] ∧
   buildPatterns keep = [re_debugger; re_alert]) ∨
  (∃ m ms, filter (λ m, m ∉ keep) CONSOLE_METHODS = m :: ms ∧
           buildPatterns keep = [re_console m ms; re_debugger; re_alert]).
Proof.
  unfold buildPatterns.
  destruct (filter (λ m, m ∉ keep) CONSOLE_METHODS) as [|m ms]; [by left|].
  right. by exists m, ms.
Qed.

Lemma filtered_methods_ok (keep : list str) :
  Forall method_ok (filter (λ m, m ∉ keep) CONSOLE_METHODS).
Proof.
  eapply Forall_sublist; [apply sublist_filter | apply CONSOLE_METHODS_ok].
Qed.

Lemma buildPatterns_anchored (keep : list str) : Forall anchored (buildPatterns keep).
Proof.
  pose proof (filtered_methods_ok keep) as Hok.
  destruct (buildPatterns_cases keep) as [[_ ->]|(m & ms & E & ->)].
  - auto using anchored_debugger, anchored_alert.
  - rewrite E in Hok.
    auto using anchored_console, anchored_debugger, anchored_alert.
Qed.

(** ** Lines without a match *)

Lemma execAll_none (r : regex) (prev : option char) (s : str) (idx : nat) :
  occurs r prev s = false → execAll r prev s idx 0 = Some [].
Proof.
  revert prev idx. induction s as [|c s IH]; intros prev idx; simpl.
  - by destruct (match_at r prev []).
  - destruct (match_at r prev (c :: s)); [done|]. apply IH.
Qed.

Lemma execAll_nil (r : regex) (prev : option char) (s : str) (idx : nat) :
  execAll r prev s idx 0 = Some [] → occurs r prev s = false.
Proof.
  revert prev idx. induction s as [|c s IH]; intros prev idx; simpl.
  - by destruct (match_at r prev []).
  - destruct (match_at r prev (c :: s)) as [rest|]; [|apply IH].
    destruct (S (length s) - length rest) as [|n]; [done|].
    by destruct (execAll r (Some c) s (S idx) n).
Qed.

Lemma lineMatches_nil (i : nat) (l : str) (p : regex) :
  lineMatches i l p = Some [] ↔ test p l = false.
Proof.
  unfold lineMatches. rewrite test_occurs. split.
  - destruct (execAll p None l 0 0) as [[|m ms]|] eqn:E; [|done..].
    intros _. by apply execAll_nil in E.
  - intros O. by rewrite execAll_none.
Qed.

Lemma patternsLoop_nil (i : nat) (l : str) (P : list regex) :
  patternsLoop i l P = Some [] ↔ Forall (λ p, test p l = false) P.
Proof.
  induction P as [|p P IH]; simpl; [done|].
  rewrite Forall_cons, <- IH, <- (lineMatches_nil i).
  destruct (lineMatches i l p) as [ms|]; simpl; [|split; [done | intros [? _]; done]].
  destruct (patternsLoop i l P) as [rest|]; simpl;
    [|split; [done | intros [_ ?]; done]].
  split.
  - intros [= E]. apply app_eq_nil in E as [-> ->]. done.
  - intros [[= ->] [= ->]]. done.
Qed.

Lemma someTest_false (P : list regex) (t : str) :
  someTest P t = false ↔ Forall (λ p, test p t = false) P.
Proof.
  unfold someTest. induction P as [|p P IH]; simpl; [done|].
  rewrite Forall_cons, orb_false_iff, IH. done.
Qed.

Lemma someTest_trim (P : list regex) (l : str) :
  Forall anchored P → someTest P (trim l) = someTest P l.
Proof.
  unfold someTest. induction 1 as [|p P Hp _ IH]; simpl; [done|].
  by rewrite test_trim, IH.
Qed.

Lemma linesLoop_nil (i : nat) (lines : list str) (P : list regex) :
  Forall anchored P →
  linesLoop i lines P = Some [] ↔ Forall (λ l, quiet P l = true) lines.
Proof.
  intros HP. revert i. induction lines as [|l lines IH]; intros i; simpl; [done|].
  rewrite Forall_cons, <- (IH (S i)). unfold quiet.
  destruct (isComment (trim l)); simpl; [split; [by split | by intros [_ ?]]|].
  rewrite negb_true_iff, someTest_trim, someTest_false, <- (patternsLoop_nil i) by done.
  destruct (patternsLoop i l P) as [ms|]; simpl; [|split; [done | intros [? _]; done]].
  destruct (linesLoop (S i) lines P) as [rest|]; simpl;
    [|split; [done | intros [_ ?]; done]].
  split.
  - intros [= E]. apply app_eq_nil in E as [-> ->]. done.
  - intros [[= ->] [= ->]]. done.
Qed.

Lemma quiet_empty (P : list regex) : Forall anchored P → quiet P [] = true.
Proof.
  intros HP. unfold quiet. change (trim []) with (@nil char).
  apply orb_true_iff. right. apply negb_true_iff, someTest_false.
  induction HP as [|p P Hp _ IH]; constructor; [|done].
  rewrite test_occurs. simpl. by rewrite (anch_nil p Hp).
Qed.

(** ** Running the remover on its own output *)

Lemma scan_single_empty (P : list regex) :
  join_nl (collapseBlank None (scan P Live [[]])) = [].
Proof.
  cbn [scan]. destruct (step_emits P Live []) as [->|[-> _]]; done.
Qed.

Lemma rerun (P : list regex) (r : list str) :
  Forall (λ l, quiet P l = true) r → Forall (λ l, NL ∉ l) r →
  let final := collapseBlank None r in
  join_nl (collapseBlank None (scan P Live (split_nl (join_nl final))))
  = join_nl final.
Proof.
  intros Hq Hnl final.
  assert (Hsub : final `sublist_of` r) by apply collapseBlank_sublist.
  destruct final as [|l final'] eqn:E.
  - apply scan_single_empty.
  - rewrite <- E in *. rewrite split_join.
    + rewrite scan_quiet by (by eapply Forall_sublist).
      unfold final. by rewrite collapseBlank_idem.
    + by rewrite E.
    + by eapply Forall_sublist.
Qed.

Lemma removeStatements_again (content : str) (P : list regex) (out : str) :
  removeStatements content P = Ok out → removeStatements out P = Ok out.
Proof.
  rewrite !removeStatements_eq. intros [= <-]. f_equal.
  apply rerun.
  - apply scan_quiet_out.
  - eapply Forall_sublist; [apply scan_sublist | apply split_nl_no_NL].
Qed.

Lemma output_lines (content : str) (P : list regex) (out : str) :
  removeStatements content P = Ok out →
  ∃ final, final = collapseBlank None (scan P Live (split_nl content)) ∧
           out = join_nl final ∧
           (split_nl out = final ∨ (final = [] ∧ split_nl out = [[]])).
Proof.
  rewrite removeStatements_eq. intros [= <-].
  eexists. split; [done|]. split; [done|].
  assert (Hnl : Forall (λ l, NL ∉ l)
                  (collapseBlank None (scan P Live (split_nl content)))).
  { eapply Forall_sublist; [apply collapseBlank_sublist|].
    eapply Forall_sublist; [apply scan_sublist | apply split_nl_no_NL]. }
  destruct (collapseBlank None (scan P Live (split_nl content))) as [|l final'];
    [by right|].
  left. by apply split_join.
Qed.

Lemma output_quiet (content : str) (P : list regex) (out : str) :
  Forall anchored P → removeStatements content P = Ok out →
  Forall (λ l, quiet P l = true) (split_nl out).
Proof.
  intros HP Hrun.
  destruct (output_lines _ _ _ Hrun) as (final & -> & _ & [->|[_ ->]]).
  - eapply Forall_sublist; [apply collapseBlank_sublist | apply scan_quiet_out].
  - constructor; [by apply quiet_empty | done].
Qed.

(** ** Multi-line statements and commented lines *)

(** A statement whose parentheses never balance takes the rest of the file
    with it. *)
Lemma scan_stays_open (P : list regex) (depth : Z) (rest : list str) :
  staysOpen depth rest = true → scan P (Skip depth) rest = [].
Proof.
  revert depth. induction rest as [|l rest IH]; intros depth; [done|].
  cbn [staysOpen]. intros [Hd Hrest]%andb_true_iff.
  cbn [scan step fst snd app]. unfold skipMode. rewrite Hd. by apply IH.
Qed.

Lemma lineMatches_line (i : nat) (l : str) (p : regex) (ms : list Match) :
  lineMatches i l p = Some ms → Forall (λ m, line m = i + 1) ms.
Proof.
  unfold lineMatches. destruct (execAll p None l 0 0) as [xs|]; [|done].
  intros [= <-]. apply Forall_fmap, Forall_true. done.
Qed.

Lemma patternsLoop_line (i : nat) (l : str) (P : list regex) (ms : list Match) :
  patternsLoop i l P = Some ms → Forall (λ m, line m = i + 1) ms.
Proof.
  revert ms. induction P as [|p P IH]; intros ms; simpl.
  - by intros [= <-].
  - destruct (lineMatches i l p) as [a|] eqn:Ea; [|done]. simpl.
    destruct (patternsLoop i l P) as [b|]; [|done]. simpl.
    intros [= <-]. apply Forall_app. split; [by eapply lineMatches_line | by apply IH].
Qed.

(** Every match is on a line that is not commented. *)
Lemma linesLoop_lines (i : nat) (lines : list str) (P : list regex) (ms : list Match) :
  linesLoop i lines P = Some ms →
  Forall (λ m, ∃ k lk, lines !! k = Some lk ∧ line m = i + k + 1 ∧
                       isComment (trim lk) = false) ms.
Proof.
  revert i ms. induction lines as [|l lines IH]; intros i ms; simpl.
  - by intros [= <-].
  - assert (Hshift : ∀ xs, linesLoop (S i) lines P = Some xs →
      Forall (λ m, ∃ k lk, (l :: lines) !! k = Some lk ∧ line m = i + k + 1 ∧
                           isComment (trim lk) = false) xs).
    { intros xs Hxs. eapply Forall_impl; [by apply IH|].
      intros m (k & lk & Hk & Hm & Hc). exists (S k), lk.
      split; [done|]. split; [lia | done]. }
    destruct (isComment (trim l)) eqn:Hc; [apply Hshift|].
    destruct (patternsLoop i l P) as [a|] eqn:Ea; [|done]. simpl.
    destruct (linesLoop (S i) lines P) as [b|]; [|done]. simpl.
    intros [= <-]. apply Forall_app. split; [|by apply Hshift].
    eapply Forall_impl; [by eapply patternsLoop_line|].
    intros m Hm. cbv beta in Hm. exists 0, l. split; [done|]. split; [lia | done].
Qed.

Lemma isComment_not_blank (l : str) : isComment (trim l) = true → blank l = false.
Proof.
  unfold blank, str_eqb. intros Hc.
  apply bool_decide_eq_false. intros E. by rewrite E in Hc.
Qed.

Lemma isComment_not_semi (l : str) :
  isComment (trim l) = true → str_eqb (trim l) (js ";") = false.
Proof.
  unfold str_eqb. intros Hc.
  apply bool_decide_eq_false. intros E. by rewrite E in Hc.
Qed.

(** A commented line that the loop reaches is pushed. *)
Lemma scan_comment (P : list regex) (pre post : list str) (l : str) :
  isComment (trim l) = true → inStatement P pre = false →
  scan P Live (pre ++ l :: post) = scan P Live pre ++ l :: scan P Live post.
Proof.
  intros Hc Hin. rewrite scan_app. f_equal.
  assert (Hl : stepLive P l = (Live, [l])) by (unfold stepLive; by rewrite Hc).
  unfold inStatement in Hin.
  destruct (modeAfter P Live pre); [|done|]; cbn [scan step].
  - by rewrite Hl.
  - by rewrite isComment_not_semi, Hl.
Qed.

Lemma wholeLine_cleaned (P : list regex) (t : str) :
  cleaned t ≠ [] → wholeLine P t = false.
Proof.
  intros Hc. induction P as [|p P IH]; simpl; [done|].
  destruct (test p t); [|done]. by destruct (cleaned t).
Qed.

(** A live line that opens a multi-line statement: the loop goes on in the
    [while] loop. *)
Lemma scan_opens (P : list regex) (first : str) (rest : list str) :
  isComment (trim first) = false →
  someTest P (trim first) = true →
  cleaned (trim first) ≠ [] →
  closeParens first < openParens first →
  scan P Live (first :: rest) = scan P (Skip (delta first)) rest.
Proof.
  intros Hc Ht Hcl Hopen. cbn [scan step]. unfold stepLive.
  rewrite Hc, (wholeLine_cleaned _ _ Hcl), Ht. cbn [negb andb].
  rewrite bool_decide_eq_true_2 by done. cbn [fst snd app].
  unfold skipMode. by rewrite bool_decide_eq_true_2 by (unfold delta; lia).
Qed.



(** ** The text of a match and its type *)

Lemma consumed_app (t rest : str) : consumed (t ++ rest) rest = t.
Proof.
  unfold consumed. rewrite length_app.
  replace (length t + length rest - length rest) with (length t) by lia.
  apply take_app_length.
Qed.

(** Every match of the loop is a match of the pattern at some position, and
    the matches come left to right. *)
Lemma execAll_elems (r : regex) (prev : option char) (s : str) (idx skip : nat)
    (xs : list (nat * str)) :
  execAll r prev s idx skip = Some xs →
  Forall (λ x, idx + skip ≤ x.1 ∧
               ∃ prev' s' rest, match_at r prev' s' = Some rest ∧
                                x.2 = consumed s' rest) xs ∧
  StronglySorted (λ a b, a.1 < b.1) xs.
Proof.
  revert prev idx skip xs.
  induction s as [|c s IH]; intros prev idx skip xs; simpl.
  - destruct skip, (match_at r prev []); intros [= <-]; split; constructor.
  - destruct skip as [|n].
    + destruct (match_at r prev (c :: s)) as [rest|] eqn:Em.
      * destruct (S (length s) - length rest) as [|n] eqn:En; [done|].
        destruct (execAll r (Some c) s (S idx) n) as [ys|] eqn:Ey; [|done].
        intros [= <-]. destruct (IH _ _ _ _ Ey) as [Hall Hsort].
        split.
        -- constructor; [split; [simpl; lia | eauto]|].
           eapply Forall_impl; [exact Hall|]. intros x [Hx ?]. split; [lia | done].
        -- constructor; [done|].
           eapply Forall_impl; [exact Hall|]. intros x [Hx ?]. simpl. lia.
      * intros Hxs. destruct (IH _ _ _ _ Hxs) as [Hall Hsort].
        split; [|done].
        eapply Forall_impl; [exact Hall|]. intros x [Hx ?]. split; [lia | done].
    + intros Hxs. destruct (IH _ _ _ _ Hxs) as [Hall Hsort].
      split; [|done].
      eapply Forall_impl; [exact Hall|]. intros x [Hx ?]. split; [lia | done].
Qed.

Lemma afterWs_Some (c : char) (s rest : str) :
  afterWs c s = Some rest → ∃ w, spaces w ∧ s = w ++ c :: rest.
Proof.
  unfold afterWs. destruct (trimStart_split s) as (w & Hw & E).
  destruct (trimStart s) as [|d s']; [done|].
  destruct (N.eqb_spec d c) as [->|]; [|done].
  intros [= ->]. by exists w.
Qed.

Lemma firstMethod_Some (ms : list str) (s rest : str) :
  firstMethod ms s = Some rest →
  ∃ m w, m ∈ ms ∧ spaces w ∧ s = m ++ w ++ LPAREN :: rest.
Proof.
  induction ms as [|m ms IH]; simpl; [done|].
  destruct (stripPrefix m s) as [s1|] eqn:E1; simpl.
  - destruct (afterWs LPAREN s1) as [r|] eqn:E2.
    + intros [= ->]. apply stripPrefix_Some in E1 as ->.
      apply afterWs_Some in E2 as (w & Hw & ->).
      exists m, w. split; [apply list_elem_of_here | done].
    + intros (m' & w & Hm & Hw & E)%IH.
      exists m', w. split; [by apply list_elem_of_further | done].
  - intros (m' & w & Hm & Hw & E)%IH.
    exists m', w. split; [by apply list_elem_of_further | done].
Qed.

Lemma at_console_shape (ms : list str) (prev : option char) (s rest : str) :
  at_console ms prev s = Some rest →
  ∃ w1 w2 m w3, m ∈ ms ∧ spaces w1 ∧ spaces w2 ∧ spaces w3 ∧
    s = (js "console" ++ w1 ++ DOT :: w2 ++ m ++ w3 ++ [LPAREN]) ++ rest.
Proof.
  unfold at_console. destruct (word_before prev); [done|].
  destruct (stripPrefix (js "console") s) as [s1|] eqn:E1; [|done].
  cbn [mbind option_bind].
  destruct (afterWs DOT s1) as [s2|] eqn:E2; [|done].
  cbn [mbind option_bind].
  intros (m & w3 & Hm & Hw3 & E3)%firstMethod_Some.
  apply stripPrefix_Some in E1 as ->.
  apply afterWs_Some in E2 as (w1 & Hw1 & ->).
  destruct (trimStart_split s2) as (w2 & Hw2 & E).
  exists w1, w2, m, w3. repeat (split; [done|]).
  rewrite E at 1. rewrite E3. by app_norm.
Qed.

Lemma at_debugger_shape (prev : option char) (s rest : str) :
  at_debugger prev s = Some rest →
  ∃ w semi, spaces w ∧ (semi = [] ∨ semi = [SEMI]) ∧
    s = (js "debugger" ++ w ++ semi) ++ rest.
Proof.
  unfold at_debugger. destruct (word_before prev); [done|].
  destruct (stripPrefix (js "debugger") s) as [s1|] eqn:E1; [|done].
  cbn [mbind option_bind]. destruct (word_after s1); [done|].
  intros [= <-]. apply stripPrefix_Some in E1 as ->.
  destruct (trimStart_split s1) as (w & Hw & E).
  destruct (trimStart s1) as [|c s2] eqn:Et.
  - exists w, []. split; [done|]. split; [by left|].
    rewrite E at 1. app_norm. by rewrite !app_nil_r.
  - simpl. destruct (N.eqb_spec c SEMI) as [->|].
    + exists w, [SEMI]. split; [done|]. split; [by right|].
      rewrite E at 1. by app_norm.
    + exists w, []. split; [done|]. split; [by left|].
      rewrite E at 1. by app_norm.
Qed.

Lemma at_alert_shape (prev : option char) (s rest : str) :
  at_alert prev s = Some rest →
  ∃ w, spaces w ∧ s = (js "alert" ++ w ++ [LPAREN]) ++ rest.
Proof.
  unfold at_alert. destruct (word_before prev); [done|].
  destruct (stripPrefix (js "alert") s) as [s1|] eqn:E1; [|done].
  cbn [mbind option_bind].
  intros (w & Hw & ->)%afterWs_Some. apply stripPrefix_Some in E1 as ->.
  exists w. split; [done|]. by app_norm.
Qed.

Lemma startsWith_app (p r : str) : startsWith (p ++ r) p = true.
Proof.
  induction p as [|a p IH]; [by destruct r|]. simpl. by rewrite N.eqb_refl.
Qed.

Lemma includes_prefix (p r : str) : includes (p ++ r) p = true.
Proof.
  destruct p as [|a p]; [by destruct r|].
  pose proof (startsWith_app (a :: p) r) as H.
  cbn [includes app] in *. by rewrite H.
Qed.

(** A needle whose first character does not occur is not included. *)
Lemma includes_absent (c : char) (p s : str) : c ∉ s → includes s (c :: p) = false.
Proof.
  induction s as [|b s IH]; intros Hc; [done|].
  apply not_elem_of_cons in Hc as [Hb Hs]. cbn [includes startsWith].
  rewrite IH by done. destruct (N.eqb_spec c b); [done|]. done.
Qed.

Lemma spaces_absent (c : char) (w : str) : is_space c = false → spaces w → c ∉ w.
Proof.
  intros Hc Hw Hin. rewrite Forall_forall in Hw. apply Hw in Hin. congruence.
Qed.

Lemma spaces_nonwords (w : str) : spaces w → nonwords w.
Proof. induction 1; constructor; auto using space_not_word. Qed.

(** A needle made of word characters does not reach across a character that
    is not one. *)
Lemma startsWith_word_run (q x y : str) (c : char) :
  words q → is_word c = false →
  startsWith (x ++ c :: y) q = startsWith x q.
Proof.
  intros Hq Hc. revert x. induction Hq as [|a q Ha Hq IH]; intros x.
  - by destruct x.
  - destruct x as [|b x]; simpl.
    + destruct (N.eqb_spec a c) as [->|]; [congruence | done].
    + by rewrite IH.
Qed.

Lemma includes_nonword_cons (q y : str) (c : char) :
  words q → q ≠ [] → is_word c = false → includes (c :: y) q = includes y q.
Proof.
  intros Hq Hne Hc. cbn [includes].
  pose proof (startsWith_word_run q [] y c Hq Hc) as H. cbn [app] in H.
  rewrite H. by destruct q.
Qed.

Lemma includes_word_run (q x y : str) (c : char) :
  words q → q ≠ [] → is_word c = false →
  includes (x ++ c :: y) q = includes x q || includes y q.
Proof.
  intros Hq Hne Hc. induction x as [|b x IH].
  - cbn [app]. rewrite includes_nonword_cons by done. by destruct q.
  - rewrite <- app_comm_cons. cbn [includes].
    rewrite app_comm_cons, startsWith_word_run, IH by done.
    by rewrite orb_assoc.
Qed.

Lemma includes_nonwords (q w : str) :
  words q → q ≠ [] → nonwords w → includes w q = false.
Proof.
  intros Hq Hne Hw. induction Hw as [|c w Hc Hw IH]; [by destruct q|].
  by rewrite includes_nonword_cons.
Qed.

(** In the text of a console match a word can only lie inside [console] or
    inside the method name. *)
Lemma includes_console_text (q w1 w2 m w3 : str) :
  words q → q ≠ [] → spaces w1 → spaces w2 → spaces w3 →
  includes (js "console" ++ w1 ++ DOT :: w2 ++ m ++ w3 ++ [LPAREN]) q =
  includes (js "console") q || includes m q.
Proof.
  intros Hq Hne H1%spaces_nonwords H2%spaces_nonwords H3%spaces_nonwords.
  rewrite (app_assoc (js "console")).
  rewrite includes_word_run by done. f_equal.
  - destruct H1 as [|c w1 Hc H1]; [by rewrite app_nil_r|].
    rewrite includes_word_run, (includes_nonwords q w1) by done.
    by rewrite orb_false_r.
  - induction H2 as [|c w2 Hc H2 IH].
    + cbn [app]. destruct H3 as [|c w3 Hc H3]; cbn [app].
      * rewrite includes_word_run by done.
        replace (includes [] q) with false by (by destruct q).
        by rewrite orb_false_r.
      * rewrite includes_word_run, (includes_nonwords q (w3 ++ [LPAREN])); try done.
        -- by rewrite orb_false_r.
        -- apply Forall_app. by split; [|repeat constructor].
    + cbn [app]. by rewrite includes_nonword_cons.
Qed.

Lemma search_group_eq (pre grp : regex) (prev : option char) (s : str) :
  search_group pre grp prev s =
  match run pre (λ p1 s1, run grp (λ _ s2, Some (consumed s1 s2)) p1 s1) prev s with
  | Some g => Some g
  | None =>
      match s with
      | [] => None
      | c :: s' => search_group pre grp (Some c) s'
      end
  end.
Proof. by destruct s. Qed.

(** The method name of a console match is read back whole. *)
Lemma methodMatch_console (w1 w2 m w3 : str) :
  spaces w1 → spaces w2 → spaces w3 → method_ok m →
  methodMatch (js "console" ++ w1 ++ DOT :: w2 ++ m ++ w3 ++ [LPAREN]) = Some m.
Proof.
  intros H1 H2 H3 [Hne Hm]. unfold methodMatch. rewrite search_group_eq.
  cbn [seqs]. rewrite run_Seq, run_lit, stripPrefix_app.
  rewrite run_ws_Chr, trimStart_app by done.
  change (DOT =? DOT)%N with true. cbv iota.
  unfold ws at 1. rewrite run_Star, star_run_commit.
  2:{ intros pr c s' Hc. cbv beta. unfold Plus. rewrite run_Seq. cbn [run cls_mem].
      by rewrite space_not_word. }
  destruct m as [|c m]; [done|]. inversion Hm as [|? ? Hc Hm']; subst.
  rewrite skip_space, trimStart_app; [|done | by apply word_not_space].
  unfold Plus. rewrite run_Seq. cbn [app]. cbn [run cls_mem]. rewrite Hc.
  assert (Hy : match w3 ++ [LPAREN] with
               | d :: _ => cls_mem CWord d = false | [] => True end).
  { destruct H3 as [|d w3 Hd _]; [done|]. by apply space_not_word. }
  rewrite star_run_total; rewrite (skip_app CWord m (w3 ++ [LPAREN])); try done.
  pose proof (consumed_app (c :: m) (w3 ++ [LPAREN])) as Hcons.
  cbn [app] in Hcons. by rewrite Hcons.
Qed.

Lemma no_console_dot (s : str) : 99%N ∉ s → includes s (js "console.") = false.
Proof. apply (includes_absent 99%N (js "onsole.")). Qed.

Lemma no_debugger (s : str) : 100%N ∉ s → includes s (js "debugger") = false.
Proof. apply (includes_absent 100%N (js "ebugger")). Qed.

Lemma matchType_alert (w : str) :
  spaces w → matchType (js "alert" ++ w ++ [LPAREN]) = js "alert".
Proof.
  intros Hw. unfold matchType.
  assert (Habs : ∀ c, c ∉ js "alert" ++ [LPAREN] → is_space c = false →
                      c ∉ js "alert" ++ w ++ [LPAREN]).
  { intros c Hc Hs. rewrite !elem_of_app in *.
    intros [?|[?%spaces_absent|?]]; tauto. }
  rewrite no_console_dot, no_debugger, includes_prefix;
    [done | apply Habs; [decide_closed | done]..].
Qed.

Lemma matchType_debugger (w semi : str) :
  spaces w → semi = [] ∨ semi = [SEMI] →
  matchType (js "debugger" ++ w ++ semi) = js "debugger".
Proof.
  intros Hw Hsemi. unfold matchType.
  rewrite no_console_dot, includes_prefix; [done|].
  rewrite !elem_of_app.
  intros [Hc|[Hc%spaces_absent|Hc]]; [|done..|].
  - revert Hc. decide_closed.
  - destruct Hsemi as [->| ->]; revert Hc; decide_closed.
Qed.

Lemma matchType_console (ms : list str) (w1 w2 m w3 : str) :
  spaces w1 → spaces w2 → spaces w3 → method_ok m → m ∈ ms →
  includes m (js "debugger") = false → includes m (js "alert") = false →
  consoleType ms (matchType (js "console" ++ w1 ++ DOT :: w2 ++ m ++ w3 ++ [LPAREN])).
Proof.
  intros H1 H2 H3 Hok Hin Hd Ha. unfold matchType.
  rewrite methodMatch_console by done.
  destruct (includes _ (js "console.")).
  - right. exists m. split; [done|]. destruct Hok as [Hne _]. by destruct m.
  - left. rewrite !includes_console_text, Hd, Ha; try done; word_literal.
Qed.

(** ** The matches of a pattern set of [buildPatterns] *)

Lemma lineMatches_typed (Q : str → Prop) (i : nat) (l : str) (r : regex)
    (xs : list Match) :
  (∀ prev s rest, match_at r prev s = Some rest → Q (matchType (consumed s rest))) →
  lineMatches i l r = Some xs →
  Forall (λ x, line x = i + 1 ∧ Q (type x)) xs ∧ StronglySorted by_column xs.
Proof.
  intros HQ. unfold lineMatches.
  destruct (execAll r None l 0 0) as [ys|] eqn:E; [|done].
  intros [= <-]. destruct (execAll_elems _ _ _ _ _ _ E) as [Hall Hsort]. split.
  - apply Forall_fmap. eapply Forall_impl; [exact Hall|].
    intros x [_ (prev & s & rest & Hm & Hx)]. simpl. rewrite Hx. eauto.
  - eapply StronglySorted_fmap; [|exact Hsort].
    intros x y Hxy. cbn in *. lia.
Qed.

Lemma type_alert (prev : option char) (s rest : str) :
  match_at re_alert prev s = Some rest → matchType (consumed s rest) = js "alert".
Proof.
  rewrite match_at_alert. intros (w & Hw & ->)%at_alert_shape.
  rewrite consumed_app. by apply matchType_alert.
Qed.

Lemma type_debugger (prev : option char) (s rest : str) :
  match_at re_debugger prev s = Some rest →
  matchType (consumed s rest) = js "debugger".
Proof.
  rewrite match_at_debugger. intros (w & semi & Hw & Hsemi & ->)%at_debugger_shape.
  rewrite consumed_app. by apply matchType_debugger.
Qed.

Lemma CONSOLE_METHODS_plain : Forall plain_method CONSOLE_METHODS.
Proof. repeat constructor. Qed.

Lemma type_console (m : str) (ms : list str) (prev : option char) (s rest : str) :
  Forall method_ok (m :: ms) → Forall plain_method (m :: ms) →
  match_at (re_console m ms) prev s = Some rest →
  consoleType (m :: ms) (matchType (consumed s rest)).
Proof.
  intros Hok Hplain. rewrite match_at_console by done.
  intros (w1 & w2 & m' & w3 & Hin & H1 & H2 & H3 & ->)%at_console_shape.
  rewrite consumed_app. rewrite Forall_forall in Hok, Hplain.
  destruct (Hplain _ Hin). apply matchType_console; auto.
Qed.

Lemma typeRank_console (ms : list str) (t : str) : consoleType ms t → typeRank t = 0.
Proof.
  intros [->|(m & _ & ->)]; [done|].
  unfold typeRank, str_eqb. rewrite !bool_decide_eq_false_2; [done|..];
    intros E; apply (f_equal head) in E; vm_compute in E; discriminate.
Qed.

Lemma sorted_same_line (rank : nat) (xs : list Match) (i : nat) :
  Forall (λ x, line x = i ∧ typeRank (type x) = rank) xs →
  StronglySorted by_column xs → StronglySorted discovered_before xs.
Proof.
  intros Hall Hsort. induction Hsort as [|x xs Hs IH Hx]; [constructor|].
  inversion Hall as [|? ? [Hl Hr] Hall']; subst. constructor; [by apply IH|].
  rewrite Forall_forall in Hx, Hall' |- *. intros y Hy.
  destruct (Hall' _ Hy) as [Hl' Hr']. right. split; [congruence|]. right.
  split; [congruence | by apply Hx].
Qed.

Lemma sorted_next_rank (xs ys : list Match) (i r1 r2 : nat) :
  r1 < r2 →
  Forall (λ x, line x = i ∧ typeRank (type x) = r1) xs →
  Forall (λ x, line x = i ∧ typeRank (type x) = r2) ys →
  ∀ x y, x ∈ xs → y ∈ ys → discovered_before x y.
Proof.
  rewrite !Forall_forall. intros Hr Hxs Hys x y Hx Hy.
  destruct (Hxs _ Hx), (Hys _ Hy). right. split; [congruence|]. left. lia.
Qed.

Lemma patternsLoop_tail (i : nat) (l : str) (xs : list Match) :
  patternsLoop i l [re_debugger; re_alert] = Some xs →
  StronglySorted discovered_before xs ∧
  Forall (λ x, line x = i + 1 ∧ (type x = js "debugger" ∨ type x = js "alert")) xs.
Proof.
  cbn [patternsLoop].
  destruct (lineMatches i l re_debugger) as [b|] eqn:Eb; [|done].
  destruct (lineMatches i l re_alert) as [c|] eqn:Ec; [|done].
  cbn [mbind option_bind]. rewrite app_nil_r. intros [= <-].
  apply (lineMatches_typed (λ t, t = js "debugger")) in Eb as [Hb Sb];
    [|apply type_debugger].
  apply (lineMatches_typed (λ t, t = js "alert")) in Ec as [Hc Sc];
    [|apply type_alert].
  split.
  - apply StronglySorted_app. split; [|split].
    + apply (sorted_next_rank b c (i + 1) 1 2); [lia|..];
        (eapply Forall_impl; [eassumption|]); by intros x [? ->].
    + apply (sorted_same_line 1 b (i + 1)); [|done].
      eapply Forall_impl; [exact Hb|]. by intros x [? ->].
    + apply (sorted_same_line 2 c (i + 1)); [|done].
      eapply Forall_impl; [exact Hc|]. by intros x [? ->].
  - apply Forall_app. split;
      (eapply Forall_impl; [eassumption|]); intros x [? E]; auto.
Qed.

Lemma linesLoop_tail (i : nat) (lines : list str) (xs : list Match) :
  linesLoop i lines [re_debugger; re_alert] = Some xs →
  Forall (λ x, type x = js "debugger" ∨ type x = js "alert") xs.
Proof.
  revert i xs. induction lines as [|l lines IH]; intros i xs; cbn [linesLoop].
  - by intros [= <-].
  - destruct (isComment (trim l)); [apply IH|].
    destruct (patternsLoop i l [re_debugger; re_alert]) as [a|] eqn:Ea; [|done].
    destruct (linesLoop (S i) lines [re_debugger; re_alert]) as [b|] eqn:Eb; [|done].
    cbn [mbind option_bind]. intros [= <-]. apply Forall_app. split; [|by eapply IH].
    apply patternsLoop_tail in Ea as [_ Ha].
    eapply Forall_impl; [exact Ha|]. by intros x [_ ?].
Qed.

Section Built.
Context (keep : list str).
Let methods := filter (λ m, m ∉ keep) CONSOLE_METHODS.

Lemma methods_plain : Forall plain_method methods.
Proof. eapply Forall_sublist; [apply sublist_filter | apply CONSOLE_METHODS_plain]. Qed.

Lemma patternsLoop_built (i : nat) (l : str) (ms : list Match) :
  patternsLoop i l (buildPatterns keep) = Some ms →
  StronglySorted discovered_before ms ∧
  Forall (λ x, line x = i + 1 ∧ knownType methods (type x)) ms.
Proof.
  pose proof (filtered_methods_ok keep) as Hok. pose proof methods_plain as Hplain.
  assert (Htail : ∀ xs, patternsLoop i l [re_debugger; re_alert] = Some xs →
    StronglySorted discovered_before xs ∧
    Forall (λ x, line x = i + 1 ∧ knownType methods (type x) ∧
                 0 < typeRank (type x)) xs).
  { intros xs [Hs Ht]%patternsLoop_tail. split; [done|].
    eapply Forall_impl; [exact Ht|]. intros x [? [E|E]]; rewrite E;
    (split; [done|]); unfold knownType; (split; [auto | vm_compute; lia]). }
  unfold methods in *.
  destruct (buildPatterns_cases keep) as [[_ ->]|(m & ms' & E & ->)].
  - intros [Hs Ht]%Htail. split; [done|].
    eapply Forall_impl; [exact Ht|]. by intros x (? & ? & _).
  - rewrite E in *. cbn [patternsLoop].
    destruct (lineMatches i l (re_console m ms')) as [a|] eqn:Ea; [|done].
    cbn [mbind option_bind].
    change (lineMatches i l re_debugger ≫= _)
      with (patternsLoop i l [re_debugger; re_alert]).
    destruct (patternsLoop i l [re_debugger; re_alert]) as [bc|] eqn:Ebc; [|done].
    cbn [mbind option_bind]. intros [= <-].
    destruct (Htail _ eq_refl) as [Sbc Hbc].
    apply (lineMatches_typed (consoleType (m :: ms'))) in Ea as [Ha Sa];
      [|intros; by eapply type_console].
    assert (Ha0 : Forall (λ x, line x = i + 1 ∧ typeRank (type x) = 0) a).
    { eapply Forall_impl; [exact Ha|]. intros x [? ?].
      split; [done | by eapply typeRank_console]. }
    split.
    + apply StronglySorted_app. split; [|split; [|done]].
      * rewrite Forall_forall in Ha0, Hbc. intros x y Hx Hy.
        destruct (Ha0 _ Hx), (Hbc _ Hy) as (? & ? & ?).
        right. split; [congruence|]. left. lia.
      * by apply (sorted_same_line 0 a (i + 1)).
    + apply Forall_app. split.
      * eapply Forall_impl; [exact Ha|]. intros x [? ?]. split; [done | by left].
      * eapply Forall_impl; [exact Hbc|]. by intros x (? & ? & _).
Qed.

Lemma linesLoop_built (i : nat) (lines : list str) (ms : list Match) :
  linesLoop i lines (buildPatterns keep) = Some ms →
  StronglySorted discovered_before ms ∧
  Forall (λ x, i + 1 ≤ line x ∧ knownType methods (type x)) ms.
Proof.
  revert i ms. induction lines as [|l lines IH]; intros i ms; simpl.
  - intros [= <-]. split; constructor.
  - assert (Hshift : ∀ xs, linesLoop (S i) lines (buildPatterns keep) = Some xs →
      StronglySorted discovered_before xs ∧
      Forall (λ x, i + 2 ≤ line x ∧ knownType methods (type x)) xs).
    { intros xs [Hs Ht]%IH. split; [done|].
      eapply Forall_impl; [exact Ht|]. intros x [? ?]. split; [lia | done]. }
    assert (Hweak : ∀ xs,
      Forall (λ x, i + 2 ≤ line x ∧ knownType methods (type x)) xs →
      Forall (λ x, i + 1 ≤ line x ∧ knownType methods (type x)) xs).
    { intros xs Ht. eapply Forall_impl; [exact Ht|].
      intros x [? ?]. split; [lia | done]. }
    destruct (isComment (trim l)).
    { intros [Hs Ht]%Hshift. auto. }
    destruct (patternsLoop i l (buildPatterns keep)) as [a|] eqn:Ea; [|done].
    destruct (linesLoop (S i) lines (buildPatterns keep)) as [b|] eqn:Eb; [|done].
    cbn [mbind option_bind]. intros [= <-].
    apply patternsLoop_built in Ea as [Sa Ha]. destruct (Hshift _ eq_refl) as [Sb Hb].
    split.
    + apply StronglySorted_app. split; [|done].
      rewrite Forall_forall in Ha, Hb. intros x y Hx Hy.
      destruct (Ha _ Hx), (Hb _ Hy). left. lia.
    + apply Forall_app. split; [|auto].
      eapply Forall_impl; [exact Ha|]. intros x [? ?]. split; [lia | done].
Qed.
End Built.

(** Every [type] that [findMatches] gives with a pattern set of
    [buildPatterns]: [console.m] for a method [m] that is not kept,
    [debugger], [alert], or [unknown]. *)
Lemma findMatches_types (content : str) (keep : list str) (ms : list Match) :
  findMatches content (buildPatterns keep) = Some ms →
  Forall (λ x, knownType (filter (λ m, m ∉ keep) CONSOLE_METHODS) (type x)) ms.
Proof.
  intros [_ Ht]%linesLoop_built. eapply Forall_impl; [exact Ht|]. by intros x [_ ?].
Qed.

Lemma no_match_no_removal (content : str) (P : list regex) :
  Forall anchored P → findMatches content P = Some [] →
  removeStatements content P = Ok (join_nl (collapseBlank None (split_nl content))).
Proof.
  intros HP Hnone. rewrite removeStatements_eq, scan_quiet; [done|].
  by apply (linesLoop_nil 0).
Qed.

Lemma filter_all_kept (keep l : list str) :
  l ⊆ keep → filter (λ m, m ∉ keep) l = [].
Proof.
  induction l as [|m l IH]; intros Hsub; [done|].
  rewrite filter_cons_False.
  - apply IH. intros x Hx. apply Hsub. by apply list_elem_of_further.
  - intros Hm. apply Hm, Hsub, list_elem_of_here.
Qed.

(** ** [findMatches] returns *)

Lemma execAll_total (r : regex) (prev : option char) (s : str) (idx skip : nat) :
  progresses r → skip ≤ length s → is_Some (execAll r prev s idx skip).
Proof.
  intros Hr. revert prev idx skip.
  induction s as [|c s IH]; intros prev idx skip Hskip; simpl in *.
  - destruct skip; [|lia].
    destruct (match_at r prev []) as [rest|] eqn:E; [|done].
    apply Hr in E. simpl in E. lia.
  - destruct skip as [|n]; [|apply IH; lia].
    destruct (match_at r prev (c :: s)) as [rest|] eqn:E; [|apply IH; lia].
    apply Hr in E. simpl in E.
    destruct (S (length s) - length rest) as [|n] eqn:En; [lia|].
    apply fmap_is_Some, IH. lia.
Qed.

Lemma patternsLoop_total (i : nat) (l : str) (P : list regex) :
  Forall progresses P → is_Some (patternsLoop i l P).
Proof.
  induction 1 as [|p P Hp HP [rest IH]]; simpl; [done|].
  unfold lineMatches.
  destruct (execAll_total p None l 0 0 Hp) as [xs ->]; [lia|]. simpl.
  rewrite IH. done.
Qed.

Lemma linesLoop_total (i : nat) (lines : list str) (P : list regex) :
  Forall progresses P → is_Some (linesLoop i lines P).
Proof.
  intros HP. revert i. induction lines as [|l lines IH]; intros i; simpl; [done|].
  destruct (isComment (trim l)); [apply IH|].
  destruct (patternsLoop_total i l P HP) as [ms ->].
  destruct (IH (S i)) as [rest ->]. done.
Qed.

Lemma progresses_console (m : str) (ms : list str) :
  Forall method_ok (m :: ms) → progresses (re_console m ms).
Proof.
  intros Hok prev s rest. rewrite match_at_console by done.
  intros (w1 & w2 & m' & w3 & _ & _ & _ & _ & ->)%at_console_shape.
  rewrite !length_app. change (length (js "console")) with 7. lia.
Qed.

Lemma progresses_debugger : progresses re_debugger.
Proof.
  intros prev s rest. rewrite match_at_debugger.
  intros (w & semi & _ & _ & ->)%at_debugger_shape.
  rewrite !length_app. change (length (js "debugger")) with 8. lia.
Qed.

Lemma progresses_alert : progresses re_alert.
Proof.
  intros prev s rest. rewrite match_at_alert.
  intros (w & _ & ->)%at_alert_shape.
  rewrite !length_app. change (length (js "alert")) with 5. lia.
Qed.

Lemma buildPatterns_progress (keep : list str) : Forall progresses (buildPatterns keep).
Proof.
  pose proof (filtered_methods_ok keep) as Hok.
  destruct (buildPatterns_cases keep) as [[_ ->]|(m & ms & E & ->)].
  - auto using progresses_debugger, progresses_alert.
  - rewrite E in Hok.
    auto using progresses_console, progresses_debugger, progresses_alert.
Qed.

(** With a pattern set of [buildPatterns] the loops of [findMatches] end. *)
Lemma findMatches_total (content : str) (keep : list str) :
  is_Some (findMatches content (buildPatterns keep)).
Proof. apply linesLoop_total, buildPatterns_progress. Qed.

(** ** One line of the input *)

Lemma modeAfter_app (P : list regex) (m : mode) (pre post : list str) :
  modeAfter P m (pre ++ post) = modeAfter P (modeAfter P m pre) post.
Proof. revert m. induction pre as [|l pre IH]; intros m; [done|]. apply IH. Qed.

(** The lines kept before a line, what the loop does with the line, and the
    lines kept after it. *)
Lemma scan_line (P : list regex) (pre post : list str) (l : str) :
  scan P Live (pre ++ l :: post) =
  scan P Live pre ++ (step P (modeAfter P Live pre) l).2
    ++ scan P (modeAfter P Live (pre ++ [l])) post.
Proof. rewrite scan_app, modeAfter_app. done. Qed.

Lemma step_reached (P : list regex) (pre : list str) (l : str) :
  reaches P pre l = true → quiet P l = true →
  step P (modeAfter P Live pre) l = (Live, [l]).
Proof.
  unfold reaches. intros Hr Hq.
  destruct (modeAfter P Live pre) as [|d|]; [|done|]; cbn [step].
  - by apply stepLive_quiet.
  - apply negb_true_iff in Hr. rewrite Hr. by apply stepLive_quiet.
Qed.

Lemma step_unreached (P : list regex) (pre : list str) (l : str) :
  reaches P pre l && quiet P l = false →
  (step P (modeAfter P Live pre) l).2 = [].
Proof.
  unfold reaches. intros Hno.
  destruct (step_emits P (modeAfter P Live pre) l) as [?|[He Hq]]; [done|].
  rewrite Hq, andb_true_r in Hno.
  destruct (modeAfter P Live pre) as [|d|]; [done|done|].
  apply negb_false_iff in Hno. cbn [step] in *. by rewrite Hno in *.
Qed.

Lemma scan_keeps_line (P : list regex) (pre post : list str) (l : str) :
  reaches P pre l = true → quiet P l = true →
  scan P Live (pre ++ l :: post) = scan P Live pre ++ l :: scan P Live post.
Proof.
  intros Hr Hq. rewrite scan_line, modeAfter_app. cbn [modeAfter].
  by rewrite (step_reached _ _ _ Hr Hq).
Qed.

Lemma scan_drops_line (P : list regex) (pre post : list str) (l : str) :
  reaches P pre l && quiet P l = false →
  scan P Live (pre ++ l :: post) =
  scan P Live pre ++ scan P (modeAfter P Live (pre ++ [l])) post.
Proof. intros Hno. by rewrite scan_line, (step_unreached _ _ _ Hno). Qed.

(** The post-pass on both sides of a line that is not blank. *)
Lemma collapseBlank_at (x y : list str) (l : str) :
  blank l = false →
  collapseBlank None (x ++ l :: y) =
  collapseBlank None x ++ l :: collapseBlank None y.
Proof.
  intros Hl. rewrite collapseBlank_app_keep by done. do 2 f_equal.
  apply collapseBlank_ext. cbn. done.
Qed.

Lemma kept_no_NL (P : list regex) (m : mode) (lines : list str) :
  Forall (λ x, NL ∉ x) lines →
  Forall (λ x, NL ∉ x) (collapseBlank None (scan P m lines)).
Proof.
  intros Hl. eapply Forall_sublist; [apply collapseBlank_sublist|].
  by eapply Forall_sublist; [apply scan_sublist|].
Qed.

(** The lines of an output that holds the line [l]. *)
Lemma output_with_line (P : list regex) (pre post : list str) (l : str) :
  Forall (λ x, NL ∉ x) (pre ++ l :: post) →
  split_nl (join_nl (collapseBlank None (scan P Live pre) ++ l
                       :: collapseBlank None (scan P Live post)))
  = collapseBlank None (scan P Live pre) ++ l :: collapseBlank None (scan P Live post).
Proof.
  intros [Hpre Hpost]%Forall_app. apply Forall_cons in Hpost as [Hl Hpost].
  apply split_join; [by destruct (collapseBlank None (scan P Live pre))|].
  apply Forall_app. split; [|constructor; [done|]]; by apply kept_no_NL.
Qed.

(** [findMatches] finds nothing in a line exactly when the loop of
    [removeStatements] keeps the line. *)
Lemma quiet_findMatches (P : list regex) (l : str) :
  Forall anchored P → NL ∉ l →
  findMatches l P = Some [] ↔ quiet P l = true.
Proof.
  intros HP Hl. unfold findMatches. rewrite split_nl_line by done.
  rewrite linesLoop_nil by done. rewrite Forall_cons, Forall_nil. tauto.
Qed.

(** A run of blank lines leaves its first line. *)
Lemma collapseBlank_blanks (b : str) (run post : list str) :
  blank b = true → Forall (λ l, blank l = true) run → headBlank post = false →
  collapseBlank (Some b) (run ++ post) = collapseBlank None post.
Proof.
  intros Hb Hrun Hpost. revert b Hb.
  induction Hrun as [|l run Hl _ IH]; intros b Hb; cbn [app].
  - destruct post as [|p post]; [done|]. cbn in Hpost.
    rewrite !collapseBlank_cons, Hpost. done.
  - rewrite collapseBlank_cons. cbn [blankO]. rewrite Hl, Hb. cbn [andb].
    by apply IH.
Qed.

Lemma collapseBlank_app (bo : option str) (x y : list str) :
  collapseBlank bo (x ++ y) =
  collapseBlank bo x
    ++ collapseBlank (match last x with Some a => Some a | None => bo end) y.
Proof.
  revert bo. induction x as [|a x IH]; intros bo; [done|].
  cbn [app]. rewrite !collapseBlank_cons, IH.
  assert (match last (a :: x) with Some c => Some c | None => bo end
          = match last x with Some c => Some c | None => Some a end) as ->.
  { destruct x as [|a' x]; [done|]. rewrite last_cons_cons.
    destruct (last (a' :: x)) eqn:E; [done|]. by apply last_None in E. }
  by destruct (blank a && blankO bo).
Qed.

Lemma collapseBlank_run (pre run post : list str) (b : str) :
  Forall (λ l, blank l = true) (b :: run) →
  blankO (last pre) = false → headBlank post = false →
  collapseBlank None (pre ++ b :: run ++ post) =
  collapseBlank None pre ++ b :: collapseBlank None post.
Proof.
  intros [Hb Hrun]%Forall_cons Hpre Hpost.
  rewrite collapseBlank_app. f_equal.
  rewrite collapseBlank_cons.
  assert (blankO (match last pre with Some a => Some a | None => None end)
          = false) as ->.
  { by destruct (last pre). }
  rewrite andb_false_r. f_equal. by apply collapseBlank_blanks.
Qed.

(** ** Inside a multi-line statement *)

Lemma stepLive_opens (P : list regex) (first : str) :
  isComment (trim first) = false →
  someTest P (trim first) = true →
  cleaned (trim first) ≠ [] →
  closeParens first < openParens first →
  stepLive P first = (Skip (delta first), []).
Proof.
  intros Hc Ht Hcl Hopen. unfold stepLive.
  rewrite Hc, (wholeLine_cleaned _ _ Hcl), Ht. cbn [negb andb].
  rewrite bool_decide_eq_true_2 by done.
  unfold skipMode. by rewrite bool_decide_eq_true_2 by (unfold delta; lia).
Qed.

Lemma modeAfter_stays_open (P : list regex) (depth : Z) (rest : list str) :
  staysOpen depth rest = true →
  ∃ depth', modeAfter P (Skip depth) rest = Skip depth'.
Proof.
  revert depth. induction rest as [|l rest IH]; intros depth; [by exists depth|].
  cbn [staysOpen]. intros [Hd Hrest]%andb_true_iff.
  cbn [modeAfter step fst]. unfold skipMode. rewrite Hd. by apply IH.
Qed.

(** The lines up to here end inside the [while] loop of a statement that
    opened on [first] and has not closed since. *)
Lemma inStatement_open (P : list regex) (before body : list str) (first : str) :
  Forall (λ x, quiet P x = true) before →
  isComment (trim first) = false →
  someTest P (trim first) = true →
  cleaned (trim first) ≠ [] →
  closeParens first < openParens first →
  staysOpen (delta first) body = true →
  inStatement P (before ++ first :: body) = true.
Proof.
  intros Hb Hc Ht Hcl Hopen Hstay. unfold inStatement.
  rewrite modeAfter_app, modeAfter_quiet by done.
  cbn [modeAfter step]. rewrite stepLive_opens by done. cbn [fst].
  by destruct (modeAfter_stays_open P _ _ Hstay) as [d ->].
Qed.

(** * The properties of the specification *)

(** C1. Running [removeStatements] on its own output, with the same pattern
    set of [buildPatterns], returns that output unchanged, and [findMatches]
    finds no match in it. *)
Theorem removeStatements_idempotent (content : str) (keep : list str) :
  ∃ out, removeStatements content (buildPatterns keep) = Ok out ∧
         removeStatements out (buildPatterns keep) = Ok out ∧
         findMatches out (buildPatterns keep) = Some [].
Proof.
  destruct (removeStatements content (buildPatterns keep)) as [out| |] eqn:Hrun;
    try (rewrite removeStatements_eq in Hrun; discriminate).
  exists out. split; [done|]. split.
  - by eapply removeStatements_again.
  - unfold findMatches. apply linesLoop_nil; [apply buildPatterns_anchored|].
    eapply output_quiet; [apply buildPatterns_anchored | done].
Qed.

Example idempotent_on_sample :
  removeStatements sample_hi (buildPatterns []) = Ok (js "const x = 1;") ∧
  removeStatements (js "const x = 1;") (buildPatterns []) = Ok (js "const x = 1;") ∧
  findMatches (js "const x = 1;") (buildPatterns []) = Some [].
Proof. repeat split; vm_compute; reflexivity. Qed.

(** C2, as the code has it. A commented line never carries a match. When
    the loop of [removeStatements] reaches it, that is, when the lines before
    it do not end inside the [while] loop of a multi-line statement, it is
    kept as it is, in its place: the output is what is kept of the lines
    before it, the line, and what is kept of the lines after it. When the
    lines before it do end inside that [while] loop, the line is consumed
    unread: it adds nothing to the output and only its parentheses count. *)
Theorem commented_line_immune (P : list regex) (content : str)
    (pre post : list str) (l : str) :
  split_nl content = pre ++ l :: post →
  isComment (trim l) = true →
  (∀ ms, findMatches content P = Some ms →
         Forall (λ m, line m ≠ length pre + 1) ms) ∧
  (inStatement P pre = false →
   ∃ pre' post', removeStatements content P = Ok (join_nl (pre' ++ l :: post')) ∧
                 split_nl (join_nl (pre' ++ l :: post')) = pre' ++ l :: post' ∧
                 pre' `sublist_of` pre ∧ post' `sublist_of` post ∧
                 pre' = collapseBlank None (scan P Live pre) ∧
                 post' = collapseBlank None (scan P Live post)) ∧
  (inStatement P pre = true →
   ∃ depth, modeAfter P Live pre = Skip depth ∧
            removeStatements content P =
            Ok (join_nl (collapseBlank None
                           (scan P Live pre
                              ++ scan P (skipMode (depth + delta l)) post)))) ∧
  (∀ before first body,
     pre = before ++ first :: body →
     Forall (λ x, quiet P x = true) before →
     isComment (trim first) = false →
     someTest P (trim first) = true →
     cleaned (trim first) ≠ [] →
     closeParens first < openParens first →
     staysOpen (delta first) body = true →
     inStatement P pre = true).
Proof.
  intros Hsplit Hc. split; [|split; [|split]];
    [| | |by intros before first body ->; apply inStatement_open].
  - intros ms Hms. unfold findMatches in Hms. rewrite Hsplit in Hms.
    eapply Forall_impl; [exact (linesLoop_lines _ _ _ _ Hms)|].
    intros m (k & lk & Hk & Hm & Hlk) Hline. simpl in *.
    assert (k = length pre) as -> by lia.
    rewrite list_lookup_middle in Hk by done. congruence.
  - intros Hin.
    exists (collapseBlank None (scan P Live pre)),
           (collapseBlank None (scan P Live post)).
    assert (Hnl : Forall (λ x, NL ∉ x) (pre ++ l :: post)).
    { rewrite <- Hsplit. apply split_nl_no_NL. }
    split; [|split; [|split; [|split; [|done]]]].
    + rewrite removeStatements_eq, Hsplit, scan_comment by done.
      by rewrite collapseBlank_at by auto using isComment_not_blank.
    + by apply output_with_line.
    + etrans; [apply collapseBlank_sublist | apply scan_sublist].
    + etrans; [apply collapseBlank_sublist | apply scan_sublist].
  - unfold inStatement. destruct (modeAfter P Live pre) as [|depth|] eqn:Hm;
      [done| |done].
    intros _. exists depth. split; [done|].
    rewrite removeStatements_eq, Hsplit, scan_line, modeAfter_app, Hm. done.
Qed.

Lemma commented_line_immune_witness :
  ((∀ ms, findMatches (text ["// console.log(1)"; "keep();"]%string)
            (buildPatterns []) = Some ms →
          Forall (λ m, line m ≠ 1) ms) ∧
   removeStatements (text ["// console.log(1)"; "keep();"]%string) (buildPatterns [])
   = Ok (text ["// console.log(1)"; "keep();"]%string)) ∧
  removeStatements sample_comment_inside (buildPatterns []) = Ok (js "keep();").
Proof.
  split.
  - destruct (commented_line_immune (buildPatterns [])
                (text ["// console.log(1)"; "keep();"]%string) [] [js "keep();"]
                (js "// console.log(1)") eq_refl eq_refl) as (Hfind & Hkeep & _).
    split; [exact Hfind|].
    destruct (Hkeep eq_refl) as (pre' & post' & Hout & _ & _ & _ & -> & ->).
    exact Hout.
  - destruct (commented_line_immune (buildPatterns []) sample_comment_inside
                [js "console.log("] [js "  1"; js ");"; js "keep();"]
                (js "  // note") eq_refl eq_refl) as (_ & _ & Hskip & Hopen).
    destruct Hskip as (depth & Hdepth & Hout).
    { apply (Hopen [] (js "console.log(") []);
        [done|constructor|reflexivity|reflexivity|by vm_compute
        |vm_compute; lia|reflexivity]. }
    injection Hdepth as <-. exact Hout.
Defined.

(** C2 fails as stated: a commented line between the lines of a multi-line
    call is deleted with the call. *)
Lemma comment_inside_call_is_deleted :
  split_nl sample_comment_inside !! 1 = Some (js "  // note") ∧
  isComment (trim (js "  // note")) = true ∧
  removeStatements sample_comment_inside (buildPatterns []) = Ok (js "keep();") ∧
  split_nl (js "keep();") = [js "keep();"].
Proof. repeat split; vm_compute; reflexivity. Qed.

(** C3, as the code has it. With [M] in the KeepSet no match has the kind
    [console.M]. [removeStatements] works on whole lines, one line at a
    time. Where [findMatches] finds nothing in the input, it only collapses
    blank lines. A line that is not blank and in which [findMatches] finds
    nothing is kept as it is, in its place, when the loop reaches it: not
    inside the [while] loop of a multi-line statement, and not as the lone
    semicolon after one. Any other line is removed whole, with the calls to
    [console.M] it holds. *)
Theorem kept_method_not_matched (keep : list str) (M : str) (content : str) :
  M ∈ keep →
  (∃ ms, findMatches content (buildPatterns keep) = Some ms ∧
         Forall (λ m, type m ≠ js "console." ++ M) ms) ∧
  (findMatches content (buildPatterns keep) = Some [] →
   removeStatements content (buildPatterns keep) =
   Ok (join_nl (collapseBlank None (split_nl content)))) ∧
  (∀ pre l post,
     split_nl content = pre ++ l :: post →
     (reaches (buildPatterns keep) pre l = true →
      findMatches l (buildPatterns keep) = Some [] →
      blank l = false →
      removeStatements content (buildPatterns keep) =
        Ok (join_nl (collapseBlank None (scan (buildPatterns keep) Live pre)
                       ++ l :: collapseBlank None (scan (buildPatterns keep) Live post))) ∧
      split_nl (join_nl (collapseBlank None (scan (buildPatterns keep) Live pre)
                           ++ l :: collapseBlank None (scan (buildPatterns keep) Live post)))
      = collapseBlank None (scan (buildPatterns keep) Live pre)
          ++ l :: collapseBlank None (scan (buildPatterns keep) Live post)) ∧
     (reaches (buildPatterns keep) pre l = false ∨
      findMatches l (buildPatterns keep) ≠ Some [] →
      removeStatements content (buildPatterns keep) =
        Ok (join_nl (collapseBlank None
                       (scan (buildPatterns keep) Live pre
                          ++ scan (buildPatterns keep)
                               (modeAfter (buildPatterns keep) Live (pre ++ [l]))
                               post))))).
Proof.
  intros HM. split; [|split].
  - destruct (findMatches_total content keep) as [ms Hms]. exists ms.
    split; [done|]. eapply Forall_impl; [by eapply findMatches_types|].
    intros x [[Hx|(m & Hm & Hx)]|[Hx|Hx]] E; rewrite Hx in E;
      try (apply (f_equal head) in E; vm_compute in E; discriminate).
    apply app_inv_head in E as ->.
    apply list_elem_of_filter in Hm as [Hm _]. done.
  - apply no_match_no_removal, buildPatterns_anchored.
  - intros pre l post Hsplit.
    assert (Hnl : Forall (λ x, NL ∉ x) (pre ++ l :: post)).
    { rewrite <- Hsplit. apply split_nl_no_NL. }
    assert (Hl : NL ∉ l).
    { apply Forall_app in Hnl as [_ Hnl]. by apply Forall_cons in Hnl as [? _]. }
    pose proof (quiet_findMatches _ l (buildPatterns_anchored keep) Hl) as Hq.
    split.
    + intros Hr Hnone%Hq Hb. split; [|by apply output_with_line].
      rewrite removeStatements_eq, Hsplit, scan_keeps_line by done.
      by rewrite collapseBlank_at.
    + intros Hno. rewrite removeStatements_eq, Hsplit, scan_drops_line; [done|].
      destruct Hno as [->|Hno]; [done|].
      destruct (quiet (buildPatterns keep) l) eqn:Hquiet;
        [|by rewrite andb_false_r].
      destruct Hno. by apply Hq.
Qed.

Lemma kept_method_not_matched_witness :
  (∃ ms, findMatches (text ["console.log(1);"; "console.error(2);"]%string)
           (buildPatterns [js "error"]) = Some ms ∧
         Forall (λ m, type m ≠ js "console." ++ js "error") ms) ∧
  removeStatements (text ["console.log(1);"; "console.error(2);"]%string)
    (buildPatterns [js "error"])
  = Ok (js "console.error(2);").
Proof.
  destruct (kept_method_not_matched [js "error"] (js "error")
              (text ["console.log(1);"; "console.error(2);"]%string))
    as (Hfind & _ & Hline).
  - apply list_elem_of_here.
  - split; [exact Hfind|].
    destruct (Hline [js "console.log(1);"] (js "console.error(2);") [] eq_refl)
      as [Hkeep _].
    destruct (Hkeep eq_refl eq_refl eq_refl) as [Hout _]. exact Hout.
Defined.

(** C3 fails as stated: a kept call that shares its line with a call that
    is not kept is removed with the line. *)
Lemma kept_call_removed_with_its_line :
  includes sample_mixed_line (js "console.error(") = true ∧
  removeStatements sample_mixed_line (buildPatterns [js "error"]) = Ok [].
Proof. split; vm_compute; reflexivity. Qed.




(** A first line that the single-line check strips to nothing is removed
    alone, and the rest of the call stays. *)
Example nested_call_first_line :
  removeStatements sample_nested_first_line (buildPatterns []) =
  Ok (text [");"; "keep();"]%string).
Proof. vm_compute. reflexivity. Qed.

(** C5: the code gives the type [unknown] to a console call written with
    white space before the dot. *)
Theorem spaced_dot_is_unknown :
  findMatches sample_spaced_dot (buildPatterns []) =
  Some [ {| file := []; line := 1; column := 1; type := js "unknown";
            content := js "console .log(1)" |} ].
Proof. vm_compute. reflexivity. Qed.

(** C6, as the code has it. The matches come by line, top to bottom; within
    a line by pattern, in the order of the pattern set (console methods,
    [debugger], [alert]); and left to right among the matches of one
    pattern. *)
Theorem matches_in_discovery_order (content : str) (keep : list str) :
  ∃ ms, findMatches content (buildPatterns keep) = Some ms ∧
        StronglySorted discovered_before ms.
Proof.
  destruct (findMatches_total content keep) as [ms Hms]. exists ms.
  split; [done|]. by apply linesLoop_built in Hms as [Hs _].
Qed.

(** C6 fails as stated: on one line the console match at column 11 comes
    before the [alert] match at column 1. *)
Lemma console_match_before_earlier_alert :
  findMatches sample_alert_first (buildPatterns []) =
  Some [ {| file := []; line := 1; column := 11; type := js "console.log";
            content := sample_alert_first |};
         {| file := []; line := 1; column := 1; type := js "alert";
            content := sample_alert_first |} ] ∧
  1 < 11.
Proof. split; [vm_compute; reflexivity | lia]. Qed.

(** C7. When the KeepSet holds the whole console vocabulary the pattern set
    has no console matcher, so no match is a console match, and [debugger]
    and [alert(] are still matched. With an empty KeepSet the pattern set is
    the console matcher over all 20 methods, [debugger] and [alert], and a
    call of each of the 20 methods is matched as such. *)
Theorem keep_all_and_keep_none (keep : list str) :
  CONSOLE_METHODS ⊆ keep →
  (buildPatterns keep = [re_debugger; re_alert] ∧
   (∀ content, ∃ ms, findMatches content (buildPatterns keep) = Some ms ∧
      Forall (λ m, type m = js "debugger" ∨ type m = js "alert") ms) ∧
   findMatches (js "debugger") (buildPatterns keep) =
     Some [ {| file := []; line := 1; column := 1; type := js "debugger";
               content := js "debugger" |} ] ∧
   findMatches (js "alert(1)") (buildPatterns keep) =
     Some [ {| file := []; line := 1; column := 1; type := js "alert";
               content := js "alert(1)" |} ]) ∧
  (length CONSOLE_METHODS = 20 ∧
   buildPatterns [] =
     [re_console (js "log") (tail CONSOLE_METHODS); re_debugger; re_alert] ∧
   Forall (λ m, findMatches (js "console." ++ m ++ js "(1)") (buildPatterns []) =
                Some [ {| file := []; line := 1; column := 1;
                          type := js "console." ++ m;
                          content := js "console." ++ m ++ js "(1)" |} ])
     CONSOLE_METHODS).
Proof.
  intros Hall. pose proof (filter_all_kept _ _ Hall) as Hnone.
  assert (HP : buildPatterns keep = [re_debugger; re_alert]).
  { unfold buildPatterns. by rewrite Hnone. }
  split; [split; [done|split; [|split]]|split; [|split]].
  - intros content. destruct (findMatches_total content keep) as [ms Hms].
    exists ms. split; [done|]. rewrite HP in Hms. by eapply linesLoop_tail.
  - rewrite HP. vm_compute. reflexivity.
  - rewrite HP. vm_compute. reflexivity.
  - reflexivity.
  - vm_compute. reflexivity.
  - repeat constructor.
Qed.

Lemma keep_all_and_keep_none_witness :
  (buildPatterns CONSOLE_METHODS = [re_debugger; re_alert] ∧
   (∀ content, ∃ ms, findMatches content (buildPatterns CONSOLE_METHODS) = Some ms ∧
      Forall (λ m, type m = js "debugger" ∨ type m = js "alert") ms) ∧
   findMatches (js "debugger") (buildPatterns CONSOLE_METHODS) =
     Some [ {| file := []; line := 1; column := 1; type := js "debugger";
               content := js "debugger" |} ] ∧
   findMatches (js "alert(1)") (buildPatterns CONSOLE_METHODS) =
     Some [ {| file := []; line := 1; column := 1; type := js "alert";
               content := js "alert(1)" |} ]) ∧
  (length CONSOLE_METHODS = 20 ∧
   buildPatterns [] =
     [re_console (js "log") (tail CONSOLE_METHODS); re_debugger; re_alert] ∧
   Forall (λ m, findMatches (js "console." ++ m ++ js "(1)") (buildPatterns []) =
                Some [ {| file := []; line := 1; column := 1;
                          type := js "console." ++ m;
                          content := js "console." ++ m ++ js "(1)" |} ])
     CONSOLE_METHODS).
Proof. apply (keep_all_and_keep_none CONSOLE_METHODS). done. Defined.

(** C8. [removeStatements] has no error path: on every input and every
    pattern set the run ends, without a [TypeError], and returns a string.
    At worst a statement whose parentheses never close takes every line
    after it: the output is what was kept before it. *)
Theorem removeStatements_total :
  (∀ content patterns, ∃ out, removeStatements content patterns = Ok out) ∧
  (∀ P content pre first rest,
     split_nl content = pre ++ first :: rest →
     Forall (λ l, quiet P l = true) pre →
     isComment (trim first) = false →
     someTest P (trim first) = true →
     cleaned (trim first) ≠ [] →
     closeParens first < openParens first →
     staysOpen (delta first) rest = true →
     removeStatements content P = Ok (join_nl (collapseBlank None pre))).
Proof.
  split.
  - intros content patterns. rewrite removeStatements_eq. eauto.
  - intros P content pre first rest Hsplit Hpre Hc Ht Hcl Hopen Hstay.
    rewrite removeStatements_eq, Hsplit. do 2 f_equal.
    rewrite scan_app, scan_quiet, modeAfter_quiet by done.
    rewrite <- (app_nil_r rest), (scan_opens P first) by done.
    by rewrite app_nil_r, scan_stays_open, app_nil_r.
Qed.

Lemma removeStatements_total_witness :
  removeStatements sample_unclosed (buildPatterns []) =
  Ok (join_nl (collapseBlank None [js "before();"])).
Proof.
  apply (proj2 removeStatements_total (buildPatterns []) sample_unclosed
           [js "before();"] (js "console.log(") [js "  oops;"; js "after();"]).
  - reflexivity.
  - repeat constructor.
  - reflexivity.
  - reflexivity.
  - vm_compute. discriminate.
  - vm_compute. lia.
  - reflexivity.
Defined.

(** C9. The scenario [console.log("hi");\nconst x = 1;] with an empty
    KeepSet: one match, at line 1, column 1, of kind [console.log]; the
    rewritten file is [const x = 1;]. *)
Theorem scenario_console_log :
  findMatches sample_hi (buildPatterns []) =
    Some [ {| file := []; line := 1; column := 1; type := js "console.log";
              content := js "console.log(" ++ [DQUOTE] ++ js "hi"
                         ++ [DQUOTE] ++ js ");" |} ] ∧
  removeStatements sample_hi (buildPatterns []) = Ok (js "const x = 1;").
Proof. split; vm_compute; reflexivity. Qed.

(** C10. The output of [removeStatements] never has two consecutive blank
    lines, whatever the input and the pattern set. Of the lines the loop
    keeps, every run of blank lines leaves its first line, in its place, and
    no other. Blank lines of the input are collapsed too, so a file without
    any match can still be changed. *)
Theorem output_has_no_blank_pair :
  (∀ content patterns,
     ∃ out, removeStatements content patterns = Ok out ∧
            noBlankPair (split_nl out)) ∧
  (∀ content patterns pre b run post,
     scan patterns Live (split_nl content) = pre ++ b :: run ++ post →
     Forall (λ l, blank l = true) (b :: run) →
     blankO (last pre) = false → headBlank post = false →
     removeStatements content patterns =
     Ok (join_nl (collapseBlank None pre ++ b :: collapseBlank None post))) ∧
  (∀ content keep pre b run post,
     findMatches content (buildPatterns keep) = Some [] →
     split_nl content = pre ++ b :: run ++ post →
     Forall (λ l, blank l = true) (b :: run) →
     blankO (last pre) = false → headBlank post = false →
     removeStatements content (buildPatterns keep) =
     Ok (join_nl (collapseBlank None pre ++ b :: collapseBlank None post))) ∧
  (findMatches sample_blanks (buildPatterns []) = Some [] ∧
   removeStatements sample_blanks (buildPatterns []) =
     Ok (text ["a"; EmptyString; "b"]%string) ∧
   text ["a"; EmptyString; "b"]%string ≠ sample_blanks).
Proof.
  split; [|split; [|split]].
  - intros content P.
    destruct (removeStatements content P) as [out| |] eqn:Hrun;
      try (rewrite removeStatements_eq in Hrun; discriminate).
    exists out. split; [done|].
    destruct (output_lines _ _ _ Hrun) as (final & -> & _ & [->|[_ ->]]).
    + apply collapseBlank_noBlankPair.
    + done.
  - intros content P pre b run post Hkept Hrun Hpre Hpost.
    rewrite removeStatements_eq, Hkept. by rewrite collapseBlank_run.
  - intros content keep pre b run post Hnone Hsplit Hrun Hpre Hpost.
    rewrite (no_match_no_removal _ _ (buildPatterns_anchored keep) Hnone), Hsplit.
    by rewrite collapseBlank_run.
  - repeat split; [vm_compute; reflexivity.. | by vm_compute].
Qed.

Lemma output_has_no_blank_pair_witness :
  removeStatements (text ["a"; " "; EmptyString; "  "; "b"]%string)
    (buildPatterns [])
  = Ok (text ["a"; " "; "b"]%string).
Proof.
  destruct output_has_no_blank_pair as (_ & _ & Hrun & _).
  apply (Hrun (text ["a"; " "; EmptyString; "  "; "b"]%string) []
           [js "a"] (js " ") [[]; js "  "] [js "b"]); try reflexivity.
  repeat constructor.
Defined.

(** * Further properties of the engine *)

Lemma collapseBlank_id (b : option str) (r : list str) :
  noBlankPair r → (blankO b = true → headBlank r = false) →
  collapseBlank b r = r.
Proof.
  revert b. induction r as [|l r IH]; intros b Hr Hb; [done|].
  apply noBlankPair_cons in Hr as [Hl Hr]. rewrite collapseBlank_cons.
  destruct (blank l && blankO b) eqn:Hdrop.
  - apply andb_true_iff in Hdrop as [Hbl Hbb]. simpl in Hb. rewrite Hb in Hbl; done.
  - f_equal. apply IH; [done|]. simpl. intros Hbl.
    destruct (headBlank r) eqn:Hh; [|done]. destruct Hl. done.
Qed.

(** X1. [removeStatements] only deletes whole lines: the lines of its output
    are lines of its input, unchanged and in the same order. *)
Theorem removeStatements_only_deletes (content : str) (P : list regex) :
  ∃ kept, removeStatements content P = Ok (join_nl kept) ∧
          kept `sublist_of` split_nl content.
Proof.
  rewrite removeStatements_eq. eexists. split; [done|].
  etrans; [apply collapseBlank_sublist | apply scan_sublist].
Qed.

(** X2. A file in which [findMatches] finds nothing and that has no two
    consecutive blank lines is returned by [removeStatements] as it is. *)
Theorem clean_file_unchanged (content : str) (keep : list str) :
  findMatches content (buildPatterns keep) = Some [] →
  noBlankPair (split_nl content) →
  removeStatements content (buildPatterns keep) = Ok content.
Proof.
  intros Hnone Hblank.
  rewrite no_match_no_removal by auto using buildPatterns_anchored.
  by rewrite collapseBlank_id, join_split.
Qed.

Lemma clean_file_unchanged_witness :
  removeStatements (text ["const x = 1;"; EmptyString; "f(x);"]%string) (buildPatterns [])
  = Ok (text ["const x = 1;"; EmptyString; "f(x);"]%string).
Proof.
  apply (clean_file_unchanged (text ["const x = 1;"; EmptyString; "f(x);"]%string) []).
  - vm_compute. reflexivity.
  - vm_compute. repeat split; intros [H1 H2]; discriminate.
Defined.

Lemma filter_kept_ext (keep keep' l : list str) :
  Forall (λ m, m ∈ keep ↔ m ∈ keep') l →
  filter (λ m, m ∉ keep) l = filter (λ m, m ∉ keep') l.
Proof.
  induction 1 as [|m l Hm Hl IH]; [done|].
  rewrite !filter_cons, IH.
  destruct (decide (m ∉ keep)) as [Hk|Hk], (decide (m ∉ keep')) as [Hk'|Hk'];
    try done; tauto.
Qed.

(** X3. [buildPatterns] looks at the KeepSet only to ask which of the 20
    console methods are in it: names that are no console method, repeated
    names and the order of the names change nothing. *)
Theorem buildPatterns_kept_methods_only (keep keep' : list str) :
  Forall (λ m, m ∈ keep ↔ m ∈ keep') CONSOLE_METHODS →
  buildPatterns keep = buildPatterns keep'.
Proof. intros Hsame. unfold buildPatterns. by rewrite (filter_kept_ext keep keep'). Qed.

Lemma buildPatterns_kept_methods_only_witness :
  buildPatterns [js "warn"; js "Error"; js "error"; js "warn"; js "nope"] =
  buildPatterns [js "error"; js "warn"].
Proof.
  apply buildPatterns_kept_methods_only. decide_closed.
Defined.

(** The matches of one line, console matches first. *)
Lemma patternsLoop_console_first (keep : list str) (i : nat) (l : str)
    (ms : list Match) :
  patternsLoop i l (buildPatterns keep) = Some ms →
  ∃ a bc, ms = a ++ bc ∧
          patternsLoop i l [re_debugger; re_alert] = Some bc ∧
          Forall (λ x, typeRank (type x) = 0) a.
Proof.
  pose proof (filtered_methods_ok keep) as Hok.
  pose proof (methods_plain keep) as Hplain.
  destruct (buildPatterns_cases keep) as [[_ ->]|(m & ms' & E & ->)].
  - intros Hms. by exists [], ms.
  - rewrite E in *. cbn [patternsLoop].
    destruct (lineMatches i l (re_console m ms')) as [a|] eqn:Ea; [|done].
    cbn [mbind option_bind].
    change (lineMatches i l re_debugger ≫= _)
      with (patternsLoop i l [re_debugger; re_alert]).
    destruct (patternsLoop i l [re_debugger; re_alert]) as [bc|]; [|done].
    cbn [mbind option_bind]. intros [= <-]. exists a, bc.
    split; [done|]. split; [done|].
    apply (lineMatches_typed (consoleType (m :: ms'))) in Ea as [Ha _];
      [|intros; by eapply type_console].
    eapply Forall_impl; [exact Ha|]. intros x [_ ?]. by eapply typeRank_console.
Qed.

Lemma plainType_rank (m : Match) : plainType m = false ↔ typeRank (type m) = 0.
Proof.
  unfold plainType, typeRank.
  destruct (str_eqb (type m) (js "debugger")); [done|].
  by destruct (str_eqb (type m) (js "alert")).
Qed.

Lemma filter_plain_console (a : list Match) :
  Forall (λ x, typeRank (type x) = 0) a → filter (λ m, plainType m = true) a = [].
Proof.
  induction 1 as [|x a Hx Ha IH]; [done|].
  rewrite filter_cons_False; [done|]. apply plainType_rank in Hx. congruence.
Qed.

Lemma filter_plain_tail (bc : list Match) :
  Forall (λ x, type x = js "debugger" ∨ type x = js "alert") bc →
  filter (λ m, plainType m = true) bc = bc.
Proof.
  induction 1 as [|x bc Hx Hbc IH]; [done|].
  rewrite filter_cons_True, IH; [done|].
  unfold plainType. by destruct Hx as [-> | ->].
Qed.

Lemma linesLoop_plain (keep : list str) (i : nat) (lines : list str)
    (ms : list Match) :
  linesLoop i lines (buildPatterns keep) = Some ms →
  linesLoop i lines [re_debugger; re_alert] =
  Some (filter (λ m, plainType m = true) ms).
Proof.
  revert i ms. induction lines as [|l lines IH]; intros i ms; cbn [linesLoop].
  - by intros [= <-].
  - destruct (isComment (trim l)); [apply IH|].
    destruct (patternsLoop i l (buildPatterns keep)) as [ab|] eqn:Eab; [|done].
    destruct (linesLoop (S i) lines (buildPatterns keep)) as [rest|] eqn:Er; [|done].
    cbn [mbind option_bind]. intros [= <-].
    apply patternsLoop_console_first in Eab as (a & bc & -> & Ebc & Ha).
    rewrite Ebc, (IH _ _ Er). cbn [mbind option_bind]. f_equal.
    rewrite !filter_app, (filter_plain_console a) by done.
    apply patternsLoop_tail in Ebc as [_ Hbc].
    rewrite (filter_plain_tail bc); [done|].
    eapply Forall_impl; [exact Hbc|]. by intros x [_ ?].
Qed.

(** X4. [debugger] and [alert] cannot be kept: whatever the KeepSet, the
    [debugger] and [alert] matches that [findMatches] reports are those it
    reports with the pattern set that has no console matcher at all. *)
Theorem keep_leaves_debugger_and_alert (content : str) (keep : list str) :
  ∃ ms, findMatches content (buildPatterns keep) = Some ms ∧
        findMatches content [re_debugger; re_alert] =
        Some (filter (λ m, plainType m = true) ms).
Proof.
  destruct (findMatches_total content keep) as [ms Hms]. exists ms.
  split; [done|]. by apply (linesLoop_plain keep).
Qed.

(** ** Where a match is *)

Lemma drop_cons_inv (l : str) (idx : nat) (c : char) (s : str) :
  drop idx l = c :: s → idx < length l ∧ l !! idx = Some c ∧ drop (S idx) l = s.
Proof.
  intros E. assert (Hlt : idx < length l).
  { destruct (decide (idx < length l)) as [|Hge]; [done|].
    rewrite drop_ge in E by lia. done. }
  split; [done|].
  destruct (lookup_lt_is_Some_2 l idx Hlt) as [d Hd].
  rewrite (drop_S _ _ _ Hd) in E. by injection E as -> ->.
Qed.

Lemma execAll_at (r : regex) (l s : str) (prev : option char) (idx skip : nat)
    (xs : list (nat * str)) :
  drop idx l = s → prev = prevAt l idx →
  execAll r prev s idx skip = Some xs →
  Forall (λ x, x.1 < length l ∧
               ∃ rest, match_at r (prevAt l x.1) (drop x.1 l) = Some rest ∧
                       x.2 = consumed (drop x.1 l) rest) xs.
Proof.
  revert prev idx skip xs.
  induction s as [|c s IH]; intros prev idx skip xs Hs Hp; simpl.
  - destruct skip, (match_at r prev []); intros [= <-]; constructor.
  - apply drop_cons_inv in Hs as (Hlt & Hc & Hs').
    assert (Hnext : Some c = prevAt l (S idx)) by done.
    assert (Hdrop : drop idx l = c :: s) by (by rewrite (drop_S _ _ _ Hc), Hs').
    destruct skip as [|n]; [|by apply IH].
    destruct (match_at r prev (c :: s)) as [rest|] eqn:Em; [|by apply IH].
    destruct (S (length s) - length rest) as [|n]; [done|].
    destruct (execAll r (Some c) s (S idx) n) as [ys|] eqn:Ey; [|done].
    intros [= <-]. constructor; [|by eapply IH].
    split; [done|]. exists rest. simpl. by rewrite Hdrop, <- Hp.
Qed.

Lemma lineMatches_at (i : nat) (l : str) (r : regex) (ms : list Match) :
  lineMatches i l r = Some ms → Forall (λ m, line m = i + 1 ∧ matchOn r l m) ms.
Proof.
  unfold lineMatches. destruct (execAll r None l 0 0) as [xs|] eqn:E; [|done].
  intros [= <-]. apply Forall_fmap.
  eapply Forall_impl; [exact (execAll_at r l l None 0 0 xs eq_refl eq_refl E)|].
  intros [idx t] (Hlt & rest & Hm & Ht). simpl in *. split; [done|].
  unfold matchOn. simpl. replace (idx + 1 - 1) with idx by lia.
  repeat (split; [done || lia|]). exists rest. by rewrite Ht.
Qed.

Lemma patternsLoop_at (i : nat) (l : str) (P : list regex) (ms : list Match) :
  patternsLoop i l P = Some ms →
  Forall (λ m, line m = i + 1 ∧ ∃ r, r ∈ P ∧ matchOn r l m) ms.
Proof.
  revert ms. induction P as [|p P IH]; intros ms; cbn [patternsLoop].
  - by intros [= <-].
  - destruct (lineMatches i l p) as [a|] eqn:Ea; [|done].
    destruct (patternsLoop i l P) as [b|]; [|done].
    cbn [mbind option_bind]. intros [= <-]. apply Forall_app. split.
    + eapply Forall_impl; [exact (lineMatches_at _ _ _ _ Ea)|].
      intros m [? ?]. split; [done|]. exists p. split; [apply list_elem_of_here | done].
    + eapply Forall_impl; [exact (IH _ eq_refl)|].
      intros m [? (r & ? & ?)]. split; [done|]. exists r.
      split; [by apply list_elem_of_further | done].
Qed.

Lemma linesLoop_at (i : nat) (lines : list str) (P : list regex) (ms : list Match) :
  linesLoop i lines P = Some ms →
  Forall (λ m, ∃ k l r, lines !! k = Some l ∧ line m = i + k + 1 ∧
                        isComment (trim l) = false ∧ r ∈ P ∧ matchOn r l m) ms.
Proof.
  revert i ms. induction lines as [|l lines IH]; intros i ms; cbn [linesLoop].
  - by intros [= <-].
  - assert (Hshift : ∀ xs, linesLoop (S i) lines P = Some xs →
      Forall (λ m, ∃ k l' r, (l :: lines) !! k = Some l' ∧ line m = i + k + 1 ∧
                             isComment (trim l') = false ∧ r ∈ P ∧ matchOn r l' m) xs).
    { intros xs Hxs. eapply Forall_impl; [exact (IH _ _ Hxs)|].
      intros m (k & l' & r & Hk & Hm & Hrest). exists (S k), l', r.
      split; [done|]. split; [lia | done]. }
    destruct (isComment (trim l)) eqn:Hc; [apply Hshift|].
    destruct (patternsLoop i l P) as [a|] eqn:Ea; [|done].
    destruct (linesLoop (S i) lines P) as [b|]; [|done].
    cbn [mbind option_bind]. intros [= <-]. apply Forall_app. split; [|by apply Hshift].
    eapply Forall_impl; [exact (patternsLoop_at _ _ _ _ Ea)|].
    intros m [Hm (r & Hr & Hon)]. exists 0, l, r.
    split; [done|]. split; [lia | done].
Qed.

(** X5. Every match that [findMatches] returns points into the file: its
    line number is that of a line that is not commented, its column lies
    within this line, its content is the trimmed line, and its file name is
    left empty for the caller. *)
Theorem matches_point_into_the_file (input : str) (P : list regex)
    (ms : list Match) :
  findMatches input P = Some ms →
  Forall (λ m, ∃ l, split_nl input !! (line m - 1) = Some l ∧
                    1 ≤ line m ∧ line m ≤ length (split_nl input) ∧
                    1 ≤ column m ∧ column m ≤ length l ∧
                    isComment (trim l) = false ∧
                    content m = trim l ∧ file m = []) ms.
Proof.
  intros Hms. eapply Forall_impl; [exact (linesLoop_at _ _ _ _ Hms)|].
  intros m (k & l & r & Hk & Hm & Hc & _ & Hf & Hcont & Hc1 & Hc2 & _).
  exists l. replace (line m - 1) with k by lia.
  apply lookup_lt_Some in Hk as Hlt. repeat (split; [done || lia|]). done.
Qed.

Lemma matches_point_into_the_file_witness :
  Forall (λ m, ∃ l, split_nl sample_hi !! (line m - 1) = Some l ∧
                    1 ≤ line m ∧ line m ≤ length (split_nl sample_hi) ∧
                    1 ≤ column m ∧ column m ≤ length l ∧
                    isComment (trim l) = false ∧
                    content m = trim l ∧ file m = [])
    [ {| file := []; line := 1; column := 1; type := js "console.log";
         content := js "console.log(" ++ [DQUOTE] ++ js "hi"
                    ++ [DQUOTE] ++ js ");" |} ].
Proof.
  apply (matches_point_into_the_file sample_hi (buildPatterns [])).
  vm_compute. reflexivity.
Defined.

Lemma stripPrefix_startsWith (p s r : str) :
  stripPrefix p s = Some r → startsWith s p = true.
Proof. intros ->%stripPrefix_Some. apply startsWith_app. Qed.

(** A match of a pattern of [buildPatterns] starts, after a character that
    is no word character, with the word of its pattern. *)
Lemma built_match_keyword (keep : list str) (r : regex) (l : str) (m : Match) :
  r ∈ buildPatterns keep → matchOn r l m →
  startsWith (drop (column m - 1) l) (keyword (typeRank (type m))) = true ∧
  word_before (prevAt l (column m - 1)) = false.
Proof.
  intros Hr (_ & _ & _ & _ & rest & Hm & Ht).
  pose proof (filtered_methods_ok keep) as Hok.
  pose proof (methods_plain keep) as Hplain.
  assert (Hda : r = re_debugger ∨ r = re_alert →
    startsWith (drop (column m - 1) l) (keyword (typeRank (type m))) = true ∧
    word_before (prevAt l (column m - 1)) = false).
  { intros [-> | ->].
    - rewrite Ht, (type_debugger _ _ _ Hm). rewrite match_at_debugger in Hm.
      unfold at_debugger in Hm.
      destruct (word_before (prevAt l (column m - 1))); [done|].
      destruct (stripPrefix (js "debugger") _) eqn:E; [|done].
      split; [|done]. by eapply stripPrefix_startsWith.
    - rewrite Ht, (type_alert _ _ _ Hm). rewrite match_at_alert in Hm.
      unfold at_alert in Hm.
      destruct (word_before (prevAt l (column m - 1))); [done|].
      destruct (stripPrefix (js "alert") _) eqn:E; [|done].
      split; [|done]. by eapply stripPrefix_startsWith. }
  destruct (buildPatterns_cases keep) as [[_ E]|(c & cs & Ef & E)]; rewrite E in Hr.
  - apply elem_of_cons in Hr as [->|Hr]; [auto|].
    apply elem_of_cons in Hr as [->|Hr]; [auto|]. by apply elem_of_nil in Hr.
  - rewrite Ef in *.
    apply elem_of_cons in Hr as [->|Hr].
    + rewrite Ht, (typeRank_console (c :: cs)) by (by eapply type_console).
      rewrite match_at_console in Hm by done. unfold at_console in Hm.
      destruct (word_before (prevAt l (column m - 1))); [done|].
      destruct (stripPrefix (js "console") _) eqn:E'; [|done].
      split; [|done]. by eapply stripPrefix_startsWith.
    + apply elem_of_cons in Hr as [->|Hr]; [auto|].
      apply elem_of_cons in Hr as [->|Hr]; [auto|]. by apply elem_of_nil in Hr.
Qed.

(** X6. With a pattern set of [buildPatterns], the column of a match is
    where the word [console], [debugger] or [alert] of its pattern starts,
    and the character before it, if any, is no word character: a name that
    only ends in one of these words is not matched. *)
Theorem match_starts_at_its_keyword (content : str) (keep : list str) :
  ∃ ms, findMatches content (buildPatterns keep) = Some ms ∧
    Forall (λ m, ∃ l, split_nl content !! (line m - 1) = Some l ∧
              startsWith (drop (column m - 1) l) (keyword (typeRank (type m))) = true ∧
              word_before (prevAt l (column m - 1)) = false) ms.
Proof.
  destruct (findMatches_total content keep) as [ms Hms]. exists ms.
  split; [done|]. eapply Forall_impl; [exact (linesLoop_at _ _ _ _ Hms)|].
  intros m (k & l & r & Hk & Hm & _ & Hr & Hon). exists l.
  replace (line m - 1) with k by lia. split; [done|].
  by eapply built_match_keyword.
Qed.

(** * The command line *)

(** ** Comma-separated values *)

Lemma splitOn_nonempty (sep : char) (s : str) : Cli.splitOn sep s ≠ [].
Proof.
  destruct s as [|c s]; cbn; [done|].
  destruct (c =? sep)%N; [done|]. by destruct (Cli.splitOn sep s).
Qed.

Lemma splitOn_no_sep (sep : char) (s : str) :
  Forall (λ l, sep ∉ l) (Cli.splitOn sep s).
Proof.
  induction s as [|c s IH]; cbn.
  - constructor; [|constructor]. by intros ?%elem_of_nil.
  - destruct (N.eqb_spec c sep) as [->|Hne].
    + constructor; [|done]. by intros ?%elem_of_nil.
    + destruct (Cli.splitOn sep s) as [|l ls].
      * constructor; [|constructor].
        intros [->| ?%elem_of_nil]%elem_of_cons; done.
      * inversion_clear IH as [|? ? Hl Hls]. constructor; [|done].
        intros [->|?]%elem_of_cons; done.
Qed.




Lemma keepOf_entries (v : str) :
  Forall (λ k, k ≠ [] ∧ Cli.COMMA ∉ k) (Cli.keepOf v).
Proof.
  unfold Cli.keepOf. apply Forall_forall. intros k [Hk Hin]%list_elem_of_filter.
  split; [done|].
  pose proof (splitOn_no_sep Cli.COMMA v) as Hall.
  rewrite Forall_forall in Hall. by apply Hall.
Qed.



Lemma withDot_dot (e : str) : startsWith (Cli.withDot e) (js ".") = true.
Proof.
  unfold Cli.withDot. destruct (startsWith e (js ".")) eqn:E; [done|].
  apply startsWith_app.
Qed.

(** ** What the loop over the arguments keeps *)

Lemma parsed_defaults : parsed Cli.defaults.
Proof.
  split; cbn; [constructor| |done|constructor].
  repeat (constructor; [by vm_compute|]). constructor.
Qed.

Lemma extensionsOf_dot (v : str) :
  Forall (λ e, startsWith e (js ".") = true) (Cli.extensionsOf v).
Proof. apply Forall_fmap, Forall_forall. intros e _. apply withDot_dot. Qed.

Lemma extensionsOf_nonempty (v : str) : Cli.extensionsOf v ≠ [].
Proof. intros E%fmap_nil_inv. by apply splitOn_nonempty in E. Qed.

Ltac case_oneOf :=
  match goal with
  | |- context [Cli.oneOf ?a ?l] => destruct (Cli.oneOf a l) eqn:?
  end.

Lemma onArg_parsed (arg v : str) (o : Cli.CliOptions) :
  parsed o → parsed (Cli.onArg arg v o).1.
Proof.
  intros [Hk He Hne Hd]. unfold Cli.onArg.
  repeat case_oneOf; try destruct (startsWith arg (js "-")) eqn:Hdash;
    split; cbn;
    auto using keepOf_entries, extensionsOf_dot, extensionsOf_nonempty.
  apply Forall_app. split; [done|]. by constructor.
Qed.

Lemma argsLoop_parsed (args : list str) (o : Cli.CliOptions) :
  parsed o → parsed (Cli.argsLoop args o).
Proof.
  remember (length args) as n eqn:Hn. revert args o Hn.
  induction (lt_wf n) as [n _ IH]. intros [|arg rest] o -> Ho; [done|].
  cbn [Cli.argsLoop].
  pose proof (onArg_parsed arg (Cli.nextArg rest) o Ho) as Ho'.
  destruct (Cli.onArg arg (Cli.nextArg rest) o) as [o' took]. cbn in Ho'.
  destruct rest as [|v rest']; [done|].
  destruct took.
  - eapply (IH (length rest')); [cbn; lia|done|done].
  - eapply (IH (length (v :: rest'))); [cbn; lia|done|done].
Qed.

Lemma parseArgs_parsed (argv : list str) : parsed (Cli.parseArgs argv).
Proof.
  unfold Cli.parseArgs.
  pose proof (argsLoop_parsed (drop 2 argv) _ parsed_defaults) as [Hk He Hne Hd].
  destruct (_ && _); [|by split].
  split; cbn; [done..|]. apply Forall_app. split; [done|]. by constructor.
Qed.



(** X7. Whatever the command line, the kept methods that [parseArgs]
    returns are non-empty names without a comma: empty items of the list
    given to [--keep] (as in [error,,warn] or a missing value) are dropped. *)
Theorem parseArgs_keep_entries (argv : list str) :
  Forall (λ k, k ≠ [] ∧ Cli.COMMA ∉ k) (Cli.keep (Cli.parseArgs argv)).
Proof. apply parseArgs_parsed. Qed.

(** X8. Whatever the command line, [parseArgs] returns at least one
    extension and each one starts with a dot, as the extensions that
    [path.extname] gives do. *)
Theorem parseArgs_extensions_dotted (argv : list str) :
  Cli.extensions (Cli.parseArgs argv) ≠ [] ∧
  Forall (λ e, startsWith e (js ".") = true) (Cli.extensions (Cli.parseArgs argv)).
Proof. split; apply parseArgs_parsed. Qed.







(** * What a match looks like on the screen *)

(** X11. Of the matches that [findMatches] gives with a pattern set of
    [buildPatterns], the ones shown with the question mark of [typeIcon]
    are exactly the ones of type [unknown]. *)
Theorem question_mark_is_unknown (content : str) (ks : list str) :
  ∃ ms, findMatches content (buildPatterns ks) = Some ms ∧
        Forall (λ m, Display.typeIcon (type m)
                       = Display.dim ++ js "?" ++ Display.reset
                     ↔ type m = js "unknown") ms.
Proof.
  destruct (findMatches_total content ks) as [ms Hms]. exists ms. split; [done|].
  eapply Forall_impl; [exact (findMatches_types _ _ _ Hms)|].
  intros m [[->|(x & _ & ->)]|[->| ->]]; cbv beta.
  - split; [done|]. intros _. by vm_compute.
  - unfold Display.typeIcon. rewrite startsWith_app.
    split; [by vm_compute|]. intros E. by vm_compute in E.
  - split; intros E; by vm_compute in E.
  - split; intros E; by vm_compute in E.
Qed.

(** * The files to scan *)

(** Induction on a directory tree. *)
Lemma entry_tree_ind (Q : Files.entry → Prop)
    (HF : ∀ n, Q (Files.File n)) (HO : ∀ n, Q (Files.Other n))
    (HU : ∀ n, Q (Files.Dir n None))
    (HD : ∀ n es, Forall Q es → Q (Files.Dir n (Some es))) :
  ∀ e, Q e.
Proof.
  fix IH 1. intros [n|n [es|]|n]; [apply HF| |apply HU|apply HO].
  apply HD. induction es as [|x es IHes]; constructor; [apply IH|apply IHes].
Qed.

Lemma elem_of_flat_map {A B : Type} (f : A → list B) (l : list A) (y : B) :
  y ∈ flat_map f l ↔ ∃ x, x ∈ l ∧ y ∈ f x.
Proof.
  induction l as [|a l IH]; cbn.
  - split; [by intros ?%elem_of_nil|]. by intros (x & ?%elem_of_nil & _).
  - rewrite elem_of_app, IH. split.
    + intros [Hy|(x & Hx & Hy)].
      * exists a. split; [apply list_elem_of_here|done].
      * exists x. split; [by apply list_elem_of_further|done].
    + intros (x & [->|Hx]%elem_of_cons & Hy); [by left|]. right. by exists x.
Qed.

Section Walk.
Variables (join : str → str → str) (extname : str → str).
Variable extensions : list str.

Lemma visit_listed (e : Files.entry) :
  ∀ dir p, p ∈ Files.visit join extname extensions dir e →
  Files.hidden (Files.name e) = false ∧
  ((∃ n, e = Files.File n ∧ extname n ∈ extensions ∧ p = join dir n) ∨
   (∃ n sub, e = Files.Dir n (Some sub) ∧ (n ∉ Files.SKIP_DIRS) ∧
             listed join extname extensions (join dir n) sub p)).
Proof.
  induction e as [n|n|n|n es IH] using entry_tree_ind; intros dir p;
    cbn [Files.visit Files.name];
    destruct (Files.hidden n) eqn:Hh; try by intros ?%elem_of_nil.
  - destruct (bool_decide_reflect (extname n ∈ extensions)) as [Hx|_];
      [|by intros ?%elem_of_nil].
    intros ->%list_elem_of_singleton. split; [done|]. left. by exists n.
  - destruct (bool_decide (n ∈ Files.SKIP_DIRS)); by intros ?%elem_of_nil.
  - destruct (bool_decide_reflect (n ∈ Files.SKIP_DIRS)) as [|Hs];
      [by intros ?%elem_of_nil|].
    intros (x & Hx & Hp)%elem_of_flat_map. split; [done|]. right.
    exists n, es. split; [done|]. split; [done|].
    rewrite Forall_forall in IH.
    destruct (IH x Hx _ _ Hp) as [Hhx [(m & -> & Hm & ->)|(m & sub & -> & Hm & Hl)]].
    + by apply listed_file.
    + by eapply listed_below.
Qed.

Lemma listed_visit (dir : str) (es : list Files.entry) (p : str) :
  listed join extname extensions dir es p →
  ∃ e, e ∈ es ∧ p ∈ Files.visit join extname extensions dir e.
Proof.
  induction 1 as [dir es n Hin Hh Hx|dir es n sub p Hin Hh Hs _ (e & He & Hp)].
  - exists (Files.File n). split; [done|]. cbn [Files.visit Files.name].
    rewrite Hh, bool_decide_eq_true_2 by done. apply list_elem_of_here.
  - exists (Files.Dir n (Some sub)). split; [done|]. cbn [Files.visit Files.name].
    rewrite Hh, bool_decide_eq_false_2 by done.
    apply elem_of_flat_map. by exists e.
Qed.

(** X12. [walkFiles] returns a path exactly when it leads from the
    directory to a file whose extension is listed, through directories that
    can be read and are not among the skipped ones, no name on the way
    starting with a dot. A directory that cannot be read gives nothing. *)
Theorem walkFiles_spec (dir : str) (entries : option (list Files.entry)) (p : str) :
  p ∈ Files.walkFiles join extname extensions dir entries ↔
  ∃ es, entries = Some es ∧ listed join extname extensions dir es p.
Proof.
  unfold Files.walkFiles, Files.walk. destruct entries as [es|].
  - split.
    + intros (e & He & Hp)%elem_of_flat_map. exists es. split; [done|].
      destruct (visit_listed e _ _ Hp)
        as [Hh [(n & -> & Hx & ->)|(n & sub & -> & Hs & Hl)]].
      * by apply listed_file.
      * by eapply listed_below.
    + intros (? & [= <-] & (e & He & Hp)%listed_visit).
      apply elem_of_flat_map. by exists e.
  - split; [by intros ?%elem_of_nil|]. by intros (? & [=] & _).
Qed.

End Walk.

(** ** The output of [git] *)

Lemma trim_inked (s w : str) :
  inkFirst s → inkFirst (reverse s) → spaces w → trim (s ++ w) = s.
Proof.
  intros Hs Hr Hw. unfold trim, trimEnd.
  assert (trimStart (s ++ w) = s ++ w) as ->.
  { destruct s as [|c s]; [done|]. cbn in *. by rewrite Hs. }
  rewrite reverse_app, trimStart_app.
  - apply reverse_involutive.
  - by apply Forall_reverse.
  - by destruct (reverse s).
Qed.

Lemma join_nl_inked (fs : list str) :
  fs ≠ [] → Forall plainName fs →
  inkFirst (join_nl fs) ∧ inkFirst (reverse (join_nl fs)).
Proof.
  induction fs as [|f fs IH]; [done|]. intros _ Hall.
  inversion_clear Hall as [|? ? (_ & Hf & Hr) Hfs].
  destruct fs as [|f' fs]; [done|].
  destruct IH as [_ IH]; [done|done|].
  change (join_nl (f :: f' :: fs)) with (f ++ NL :: join_nl (f' :: fs)).
  split.
  - by destruct f.
  - rewrite reverse_app, reverse_cons.
    by destruct (reverse (join_nl (f' :: fs))).
Qed.

Lemma lines_join_nl (fs : list str) :
  fs ≠ [] → flat_map (λ f, f ++ [NL]) fs = join_nl fs ++ [NL].
Proof.
  induction fs as [|f fs IH]; [done|]. intros _.
  destruct fs as [|f' fs]; [cbn [flat_map join_nl]; by rewrite app_nil_r|].
  change (flat_map (λ f, f ++ [NL]) (f :: f' :: fs))
    with ((f ++ [NL]) ++ flat_map (λ f, f ++ [NL]) (f' :: fs)).
  rewrite IH by done.
  change (join_nl (f :: f' :: fs)) with (f ++ NL :: join_nl (f' :: fs)).
  by rewrite <- !app_assoc.
Qed.

Lemma filter_named (Q : str → Prop) `{∀ f, Decision (Q f)} (fs : list str) :
  Forall (λ f, f ≠ []) fs →
  filter (λ f, f ≠ [] ∧ Q f) fs = filter Q fs.
Proof.
  induction 1 as [|f fs Hf _ IH]; [done|].
  destruct (decide (Q f)).
  - rewrite !filter_cons_True by done. by f_equal.
  - rewrite !filter_cons_False by tauto. done.
Qed.

(** X13. When [git] prints the staged names one on a line, each name free
    of line breaks and of white space at its ends, [getStagedFiles] returns
    the resolved names that have a listed extension, in the order printed;
    no name printed gives no file. *)
Theorem getStagedFiles_lines (extname resolve : str → str)
    (extensions fs : list str) :
  Forall plainName fs →
  Files.getStagedFiles extname resolve extensions
    (Some (flat_map (λ f, f ++ [NL]) fs))
  = resolve <$> filter (λ f, extname f ∈ extensions) fs.
Proof.
  intros Hfs. unfold Files.getStagedFiles. f_equal.
  destruct (decide (fs = [])) as [->|Hne]; [done|].
  rewrite lines_join_nl by done.
  destruct (join_nl_inked fs Hne Hfs) as [Hs Hr].
  rewrite trim_inked; [|done|done|by repeat constructor].
  rewrite split_join; [|done|].
  - apply filter_named. eapply Forall_impl; [exact Hfs|].
    intros f (_ & Hf & _) ->. done.
  - eapply Forall_impl; [exact Hfs|]. by intros f (? & _).
Qed.

Lemma getStagedFiles_lines_witness :
  Files.getStagedFiles (λ f, drop (length f - 3) f) (λ f, js "/repo/" ++ f)
    [js ".ts"] (Some (js "src/a.ts" ++ [NL] ++ js "README.md" ++ [NL]))
  = [js "/repo/src/a.ts"].
Proof.
  apply (getStagedFiles_lines (λ f, drop (length f - 3) f) (λ f, js "/repo/" ++ f)
           [js ".ts"] [js "src/a.ts"; js "README.md"]).
  apply Forall_cons_2; [|apply Forall_cons_2; [|apply Forall_nil_2]];
    (split; [decide_closed|split; by vm_compute]).
Defined.

(** * A run over files *)

Section Scan.
Variable writable : str → bool.
Variable opts : Cli.CliOptions.
Variable texts : gmap str str.

Local Abbreviation P := (buildPatterns (Cli.keep opts)).
Local Abbreviation rewritten := (rewritten writable opts texts).
Local Abbreviation reported := (reported opts texts).
Local Abbreviation counted := (counted writable opts texts).
Local Abbreviation scanned := (scanned writable opts texts).

(** The text that [removeStatements] returns holds no match. *)
Lemma fixed_text_quiet (c out : str) :
  removeStatements c P = Ok out → findMatches out P = Some [].
Proof.
  intros Hrun. unfold findMatches.
  apply linesLoop_nil; [apply buildPatterns_anchored|].
  eapply output_quiet; [apply buildPatterns_anchored|done].
Qed.

Lemma rewritten_more (done done' : list str) (f : str) (now : option str) :
  done ⊆ done' → rewritten done f now → rewritten done' f now.
Proof.
  intros Hsub (Hfix & Hdry & Hf & Hw & Hrest).
  repeat (split; [done|]). split; [by apply Hsub|]. done.
Qed.

Lemma rewritten_quiet (done : list str) (f c : str) :
  rewritten done f (Some c) → findMatches c P = Some [].
Proof.
  intros (_ & _ & _ & _ & c0 & found & out & _ & _ & _ & Hrun & [= ->]).
  by eapply fixed_text_quiet.
Qed.

(** A text with a match is the text the file had before the run. *)
Lemma matched_text_original (done : list str) (st : Run.state) (f c : str)
    (found : list Match) :
  scanned done st → Run.store st !! f = Some c →
  findMatches c P = Some found → found ≠ [] → texts !! f = Some c.
Proof.
  intros [Hstore _ _ _ _] Hc Hfound Hne.
  destruct (Hstore f) as [<-|Hre]; [done|].
  rewrite Hc in Hre. apply rewritten_quiet in Hre. congruence.
Qed.

Lemma done_snoc (done : list str) (f : str) : done ⊆ done ++ [f].
Proof. intros x Hx. apply elem_of_app. by left. Qed.

(** The loop goes past [f] and leaves the state as it is. *)
Lemma scanned_skip (done : list str) (st : Run.state) (f : str) :
  scanned done st →
  (counted f → ∃ r, r ∈ Run.results st ∧ Run.file r = f) →
  (Cli.fix_ opts = true → Cli.dryRun opts = false → writable f = true →
   ∀ c, Run.store st !! f = Some c → findMatches c P = Some []) →
  scanned (done ++ [f]) st.
Proof.
  intros [Hstore Hres Hall Htot Hclean] Hcount Hquiet. split.
  - intros g. destruct (Hstore g) as [?|Hre]; [by left|right].
    eapply rewritten_more; [apply done_snoc|done].
  - eapply Forall_impl; [exact Hres|]. intros r (Hr & Hrep & Hfixed).
    split; [by apply done_snoc|]. split; [done|]. intros Hf.
    eapply rewritten_more; [apply done_snoc|by apply Hfixed].
  - intros g [Hg| ->%list_elem_of_singleton]%elem_of_app; [by apply Hall|done].
  - done.
  - intros Hfix Hdry g c [Hg| ->%list_elem_of_singleton]%elem_of_app Hw Hc.
    + by eapply Hclean.
    + by eapply Hquiet.
Qed.

(** The loop reports the matches of [f] and writes nothing. *)
Lemma scanned_report (done : list str) (st : Run.state) (f c : str)
    (found : list Match) :
  scanned done st → Run.store st !! f = Some c →
  findMatches c P = Some found → found ≠ [] →
  Cli.fix_ opts && negb (Cli.dryRun opts) = false →
  scanned (done ++ [f])
    (Run.push (Run.mkResult f (Run.setFile f <$> found) false) st).
Proof.
  intros Hst Hc Hfound Hne Hno.
  pose proof (matched_text_original _ _ _ _ _ Hst Hc Hfound Hne) as Horig.
  destruct Hst as [Hstore Hres Hall Htot Hclean]. split; cbn [Run.store Run.results Run.totalMatches Run.push].
  - intros g. destruct (Hstore g) as [?|Hre]; [by left|right].
    eapply rewritten_more; [apply done_snoc|done].
  - apply Forall_app. split.
    + eapply Forall_impl; [exact Hres|]. intros r (Hr & Hrep & Hfixed).
      split; [by apply done_snoc|]. split; [done|]. intros Hf.
      eapply rewritten_more; [apply done_snoc|by apply Hfixed].
    + constructor; [|constructor].
      cbn [Run.file Run.matches Run.fixed]. split; [|split; [|done]].
      * apply elem_of_app. right. apply list_elem_of_here.
      * exists c, found. by rewrite Hno.
  - intros g [Hg| ->%list_elem_of_singleton]%elem_of_app Hcount.
    + destruct (Hall g Hg Hcount) as (r & Hr & E). exists r.
      split; [|done]. apply elem_of_app. by left.
    + eexists. split; [apply elem_of_app; right; apply list_elem_of_here|done].
  - rewrite sum_list_with_app, Htot. cbn [sum_list_with Run.matches]. lia.
  - intros Hfix Hdry. by rewrite Hfix, Hdry in Hno.
Qed.

(** The loop writes the text of [f] without the statements and reports the
    matches. *)
Lemma scanned_fix (done : list str) (st : Run.state) (f c out : str)
    (found : list Match) :
  scanned done st → Run.store st !! f = Some c →
  findMatches c P = Some found → found ≠ [] →
  Cli.fix_ opts = true → Cli.dryRun opts = false →
  removeStatements c P = Ok out → writable f = true →
  scanned (done ++ [f])
    (Run.push (Run.mkResult f (Run.setFile f <$> found) true)
       (Run.mkState (<[f := out]> (Run.store st)) (Run.results st)
          (Run.totalMatches st))).
Proof.
  intros Hst Hc Hfound Hne Hfix Hdry Hrun Hw.
  pose proof (matched_text_original _ _ _ _ _ Hst Hc Hfound Hne) as Horig.
  assert (rewritten (done ++ [f]) f (Some out)) as Hnew.
  { repeat (split; [done|]).
    split; [apply elem_of_app; right; apply list_elem_of_here|].
    split; [done|]. by exists c, found, out. }
  destruct Hst as [Hstore Hres Hall Htot Hclean]. split; cbn [Run.store Run.results Run.totalMatches Run.push].
  - intros g. destruct (decide (f = g)) as [<-|Hg].
    + right. by rewrite lookup_insert_eq.
    + rewrite lookup_insert_ne by done.
      destruct (Hstore g) as [?|Hre]; [by left|right].
      eapply rewritten_more; [apply done_snoc|done].
  - apply Forall_app. split.
    + eapply Forall_impl; [exact Hres|]. intros r (Hr & Hrep & Hfixed).
      split; [by apply done_snoc|]. split; [done|]. intros Hf.
      destruct (decide (f = Run.file r)) as [<-|Hg].
      * by rewrite lookup_insert_eq.
      * rewrite lookup_insert_ne by done.
        eapply rewritten_more; [apply done_snoc|by apply Hfixed].
    + constructor; [|constructor].
      cbn [Run.file Run.matches Run.fixed]. split; [|split].
      * apply elem_of_app. right. apply list_elem_of_here.
      * exists c, found. by rewrite Hfix, Hdry.
      * intros _. by rewrite lookup_insert_eq.
  - intros g [Hg| ->%list_elem_of_singleton]%elem_of_app Hcount.
    + destruct (Hall g Hg Hcount) as (r & Hr & E). exists r.
      split; [|done]. apply elem_of_app. by left.
    + eexists. split; [apply elem_of_app; right; apply list_elem_of_here|done].
  - rewrite sum_list_with_app, Htot. cbn [sum_list_with Run.matches]. lia.
  - intros _ _ g c' Hg Hwg. destruct (decide (f = g)) as [<-|Hne'].
    + rewrite lookup_insert_eq. intros [= <-]. by eapply fixed_text_quiet.
    + rewrite lookup_insert_ne by done. intros Hc'.
      apply elem_of_app in Hg as [Hg| ->%list_elem_of_singleton]; [|done].
      by eapply Hclean.
Qed.

(** One turn of the loop. *)
Lemma onFile_scanned (done : list str) (st : Run.state) (f : str) :
  scanned done st →
  ∃ st', Run.onFile writable opts P f st = Some st' ∧ scanned (done ++ [f]) st'.
Proof.
  intros Hst. unfold Run.onFile.
  destruct (Run.store st !! f) as [c|] eqn:Hc.
  2: { exists st. split; [done|]. apply scanned_skip; [done| |intros _ _ _ c' ?; congruence].
       intros (c & found & Horig & _).
       destruct (scanned_store _ _ _ _ _ Hst f) as [E|Hre].
       - congruence.
       - rewrite Hc in Hre. by destruct Hre as (_ & _ & _ & _ & ? & ? & ? & _ & _ & _ & _ & ?). }
  destruct (findMatches_total c (Cli.keep opts)) as [found Hfound].
  rewrite Hfound, length_fmap.
  destruct found as [|m found].
  { exists st. split; [done|]. apply scanned_skip; [done| |].
    - intros (c0 & found0 & Horig & Hfound0 & Hne0 & Hw0).
      destruct (scanned_store _ _ _ _ _ Hst f) as [E|Hre].
      + congruence.
      + apply (scanned_all _ _ _ _ _ Hst).
        * by destruct Hre as (_ & _ & ? & _).
        * by exists c0, found0.
    - intros _ _ _ c' ?. congruence. }
  cbn [length Nat.ltb Nat.leb andb].
  destruct (Cli.fix_ opts && negb (Cli.dryRun opts)) eqn:Hmode.
  - apply andb_true_iff in Hmode as [Hfix Hdry%negb_true_iff].
    rewrite removeStatements_eq.
    destruct (writable f) eqn:Hw.
    + eexists. split; [reflexivity|].
      exact (scanned_fix done st f c _ (m :: found) Hst Hc Hfound
               ltac:(discriminate) Hfix Hdry (removeStatements_eq _ _) Hw).
    + exists st. split; [done|]. apply scanned_skip; [done| |congruence].
      intros (_ & _ & _ & _ & _ & Hwr). specialize (Hwr Hfix Hdry). congruence.
  - eexists. split; [reflexivity|].
    exact (scanned_report done st f c (m :: found) Hst Hc Hfound
             ltac:(discriminate) Hmode).
Qed.

Lemma filesLoop_scanned (todo done : list str) (st : Run.state) :
  scanned done st →
  ∃ st', Run.filesLoop writable opts P todo st = Some st' ∧
         scanned (done ++ todo) st'.
Proof.
  revert done st. induction todo as [|f todo IH]; intros done st Hst.
  - exists st. by rewrite app_nil_r.
  - cbn [Run.filesLoop].
    destruct (onFile_scanned done st f Hst) as (st1 & -> & Hst1).
    destruct (IH _ _ Hst1) as (st' & Hloop & Hst').
    exists st'. split; [done|]. by rewrite <- app_assoc in Hst'.
Qed.

Lemma scanFiles_scanned (files : list str) :
  ∃ st, Run.scanFiles writable opts files texts = Some st ∧ scanned files st.
Proof.
  unfold Run.scanFiles.
  apply (filesLoop_scanned files [] (Run.mkState texts [] 0)).
  split; cbn [Run.store Run.results Run.totalMatches].
  - by left.
  - constructor.
  - by intros ? ?%elem_of_nil.
  - reflexivity.
  - by intros _ _ ? ? ?%elem_of_nil.
Qed.

(** Files without a match are left alone. *)
Lemma filesLoop_quiet (files : list str) (st : Run.state) :
  (∀ f c, f ∈ files → Run.store st !! f = Some c → findMatches c P = Some []) →
  Run.filesLoop writable opts P files st = Some st.
Proof.
  induction files as [|f files IH]; intros Hq; [done|].
  cbn [Run.filesLoop].
  assert (Run.onFile writable opts P f st = Some st) as ->.
  { unfold Run.onFile. destruct (Run.store st !! f) as [c|] eqn:Hc; [|done].
    by rewrite (Hq f c (list_elem_of_here _ _) Hc). }
  apply IH. intros g c Hg. apply Hq. by apply list_elem_of_further.
Qed.

(** X14. The loop over the files ends, and afterwards every file holds the
    text it had, or, when it had a match, [--fix] was given without
    [--dry-run], the file is among the scanned ones and can be written, what
    [removeStatements] returns on the text it had. *)
Theorem scan_writes_only_fixed_text (files : list str) :
  ∃ st, Run.scanFiles writable opts files texts = Some st ∧
    ∀ f, Run.store st !! f = texts !! f ∨
         (Cli.fix_ opts = true ∧ Cli.dryRun opts = false ∧ f ∈ files ∧
          writable f = true ∧
          ∃ c found out,
            texts !! f = Some c ∧ findMatches c P = Some found ∧ found ≠ [] ∧
            removeStatements c P = Ok out ∧ Run.store st !! f = Some out).
Proof.
  destruct (scanFiles_scanned files) as (st & Hrun & Hst). exists st.
  split; [done|]. exact (scanned_store _ _ _ _ _ Hst).
Qed.

(** X15. After a run with [--fix] and without [--dry-run], [findMatches]
    finds nothing in any scanned file that can be written. *)
Theorem fix_leaves_no_match (files : list str) :
  Cli.fix_ opts = true → Cli.dryRun opts = false →
  ∃ st, Run.scanFiles writable opts files texts = Some st ∧
    ∀ f c, f ∈ files → writable f = true → Run.store st !! f = Some c →
           findMatches c P = Some [].
Proof.
  intros Hfix Hdry.
  destruct (scanFiles_scanned files) as (st & Hrun & Hst). exists st.
  split; [done|]. exact (scanned_clean _ _ _ _ _ Hst Hfix Hdry).
Qed.

(** X16. When every scanned file can be written, a second run after a run
    with [--fix] and without [--dry-run] reports nothing and writes
    nothing. *)
Theorem second_run_finds_nothing (files : list str) :
  Cli.fix_ opts = true → Cli.dryRun opts = false →
  (∀ f, f ∈ files → writable f = true) →
  ∃ st, Run.scanFiles writable opts files texts = Some st ∧
        Run.scanFiles writable opts files (Run.store st)
        = Some (Run.mkState (Run.store st) [] 0).
Proof.
  intros Hfix Hdry Hw.
  destruct (scanFiles_scanned files) as (st & Hrun & Hst). exists st.
  split; [done|]. unfold Run.scanFiles. apply filesLoop_quiet.
  intros f c Hf Hc. cbn [Run.store] in Hc.
  exact (scanned_clean _ _ _ _ _ Hst Hfix Hdry f c Hf (Hw f Hf) Hc).
Qed.

(** X17. The results of a run: one for a scanned file, with the matches of
    the text the file had before the run, of which there is at least one,
    each carrying the name of the file. The result is marked as fixed
    exactly with [--fix] and without [--dry-run], and then the file holds
    what [removeStatements] returns on that text. The total is the number
    of matches of the results. *)
Theorem results_of_a_run (files : list str) :
  ∃ st, Run.scanFiles writable opts files texts = Some st ∧
    Run.totalMatches st
    = sum_list_with (λ r, length (Run.matches r)) (Run.results st) ∧
    Forall (λ r,
      Run.file r ∈ files ∧
      ∃ c found,
        texts !! Run.file r = Some c ∧ findMatches c P = Some found ∧
        found ≠ [] ∧
        Run.matches r = Run.setFile (Run.file r) <$> found ∧
        Run.fixed r = Cli.fix_ opts && negb (Cli.dryRun opts) ∧
        (Run.fixed r = true →
         ∃ out, removeStatements c P = Ok out ∧
                Run.store st !! Run.file r = Some out))
      (Run.results st).
Proof.
  destruct (scanFiles_scanned files) as (st & Hrun & Hst). exists st.
  split; [done|]. split; [exact (scanned_total _ _ _ _ _ Hst)|].
  eapply Forall_impl; [exact (scanned_results _ _ _ _ _ Hst)|].
  intros r (Hr & (c & found & Hc & Hfound & Hne & Hms & Hfixed) & Hre).
  split; [done|]. exists c, found. repeat (split; [done|]).
  intros (_ & _ & _ & _ & c' & found' & out & Hc' & _ & _ & Hout & Hnow)%Hre.
  exists out. split; [congruence|done].
Qed.

(** X18. The exit status is 0 or 1. It is 1 exactly when [--ci] was given
    and some scanned file held a match before the run, unless the run is to
    fix the file and cannot write it: such a file is passed over. A match
    that [--fix] has removed still counts. *)
Theorem exit_status (files : list str) :
  ∃ st, Run.scanFiles writable opts files texts = Some st ∧
    Run.exitCode opts st ≤ 1 ∧
    (Run.exitCode opts st = 1 ↔
     Cli.ci opts = true ∧
     ∃ f c found,
       f ∈ files ∧ texts !! f = Some c ∧ findMatches c P = Some found ∧
       found ≠ [] ∧
       (Cli.fix_ opts = true → Cli.dryRun opts = false → writable f = true)).
Proof.
  destruct (scanFiles_scanned files) as (st & Hrun & Hst). exists st.
  split; [done|]. unfold Run.exitCode.
  rewrite (scanned_total _ _ _ _ _ Hst).
  pose proof (scanned_results _ _ _ _ _ Hst) as Hres.
  pose proof (scanned_all _ _ _ _ _ Hst) as Hall.
  split; [destruct (_ && _); lia|].
  destruct (Cli.ci opts); cbn [andb]; [|split; [done|by intros [? _]]].
  destruct (Nat.ltb_spec 0
              (sum_list_with (λ r, length (Run.matches r)) (Run.results st)))
    as [Hpos|Hzero].
  - split; [intros _|done]. split; [done|].
    destruct (Run.results st) as [|r rs]; [cbn in Hpos; lia|].
    apply Forall_cons in Hres
      as [(Hr & (c & found & Hc & Hfound & Hne & _ & Hfixed) & Hre) _].
    exists (Run.file r), c, found. do 4 (split; [done|]).
    intros Hfix Hdry. rewrite Hfix, Hdry in Hfixed.
    by destruct (Hre Hfixed) as (_ & _ & _ & ? & _).
  - split; [done|]. intros (_ & f & c & found & Hf & Hc & Hfound & Hne & Hw).
    destruct (Hall f Hf) as (r & Hr & <-); [by exists c, found|].
    rewrite Forall_forall in Hres.
    destruct (Hres r Hr) as (_ & (c' & found' & _ & _ & Hne' & Hms & _) & _).
    pose proof (sum_list_with_in r (λ r, length (Run.matches r)) _ Hr) as Hle.
    cbv beta in Hle. rewrite Hms, length_fmap in Hle.
    destruct found'; [done|]. cbn in Hle. lia.
Qed.

End Scan.

Lemma fix_leaves_no_match_witness :
  ∃ st,
    Run.scanFiles (λ _, true)
      (Cli.mkOptions [js "."] true [] false false false false [js ".js"] false false)
      [js "a.js"] {[ js "a.js" := sample_hi ]} = Some st ∧
    ∀ f c, f ∈ [js "a.js"] → true = true → Run.store st !! f = Some c →
           findMatches c (buildPatterns []) = Some [].
Proof.
  apply (fix_leaves_no_match (λ _, true)
           (Cli.mkOptions [js "."] true [] false false false false [js ".js"]
              false false)
           {[ js "a.js" := sample_hi ]} [js "a.js"]); reflexivity.
Defined.

Lemma second_run_finds_nothing_witness :
  ∃ st,
    Run.scanFiles (λ _, true)
      (Cli.mkOptions [js "."] true [] false false false false [js ".js"] false false)
      [js "a.js"] {[ js "a.js" := sample_hi ]} = Some st ∧
    Run.scanFiles (λ _, true)
      (Cli.mkOptions [js "."] true [] false false false false [js ".js"] false false)
      [js "a.js"] (Run.store st)
    = Some (Run.mkState (Run.store st) [] 0).
Proof.
  apply (second_run_finds_nothing (λ _, true)
           (Cli.mkOptions [js "."] true [] false false false false [js ".js"]
              false false)
           {[ js "a.js" := sample_hi ]} [js "a.js"]); reflexivity.
Defined.
